(** * Adaptive policy engine of ruya-hackathon: a shallow embedding

    The development follows these source files:
    - [src/run.mjs]: strategy selection, memory update, exploration decay,
      the escalation decision and the round loop of [main];
    - [src/llm-evaluator.mjs] (imported by run.mjs): rule scoring, payload
      normalisation and the adaptive evaluator with its fallback;
    - [src/elevenlabs-outbound.mjs]: phone normalisation and the outbound
      call dispatcher;
    - [src/reset.mjs]: the baseline memory;
    - the webhook server (signature header, signature check, the guard of the
      request handler, the learning file) and [src/replay-webhook.mjs], the
      sender that signs a body for it.

    Modelling conventions.
    - A JavaScript number that takes part in arithmetic is an exact rational
      ([Q]); [x.toFixed(k)] read back through [Number] is the nearest
      multiple of [10^-k], halves away from zero.  The non-finite numbers
      appear only where the code tests for them ([Number.isFinite], the
      [-Infinity] seed of a maximum search).
    - Counters, round indices and array positions are integers.
    - Strings are byte strings; [toLowerCase] and [trim] act on the ASCII
      letters and the ASCII white space.
    - Objects used as dictionaries ([strategyStats], [objectionPolicy]) are
      finite maps; [candidateScores], which the code walks with
      [Object.entries], is an association list in insertion order.
    - A [TypeError] raised by the code is the result [None].
    - Effects outside the process (clock, HTTP replies, environment
      variables) are arguments of the functions that consume them; so are
      [JSON.parse], the HMAC of [node:crypto] and [Number] on a text, where
      the code calls them. *)

From Stdlib Require Import ZArith QArith Qround Qminmax Qabs Lqa Lia.
From Stdlib Require Import String Ascii List.
From stdpp Require Import gmap strings list.

Local Open Scope string_scope.

(** ** Numbers *)

(** [Number.isFinite] separates the rationals from the three other values. *)
Inductive JsNumber : Type :=
| Finite (q : Q)
| NaN
| PosInfinity
| NegInfinity.


Definition Qltb (x y : Q) : bool := negb (Qle_bool y x).

Definition pow10 (f : nat) : Z := (10 ^ Z.of_nat f)%Z.

(** The integer [n] with [n / 10^f] closest to [x], the one of larger
    magnitude when two are equally close (the digits [toFixed] prints). *)
Definition roundHalfAway (x : Q) : Z :=
  if Qle_bool 0 x then Qfloor (x + (1 # 2))%Q
  else (- Qfloor (- x + (1 # 2))%Q)%Z.

(** [Number(x.toFixed(f))]. *)
Definition toFixed (f : nat) (x : Q) : Q :=
  (inject_Z (roundHalfAway (x * inject_Z (pow10 f))) / inject_Z (pow10 f))%Q.

(** A number written with at most [f] decimals. *)
Definition onGrid (f : nat) (x : Q) : Prop :=
  exists n : Z, (x == inject_Z n / inject_Z (pow10 f))%Q.

(** ** Strings *)

Definition isUpper (c : ascii) : bool :=
  let n := nat_of_ascii c in (65 <=? n)%nat && (n <=? 90)%nat.

Definition lowerAscii (c : ascii) : ascii :=
  if isUpper c then ascii_of_nat (nat_of_ascii c + 32) else c.

Fixpoint toLowerCase (s : string) : string :=
  match s with
  | EmptyString => EmptyString
  | String c r => String (lowerAscii c) (toLowerCase r)
  end.

(** TAB, LF, VT, FF, CR and the space. *)
Definition isSpace (c : ascii) : bool :=
  let n := nat_of_ascii c in ((9 <=? n)%nat && (n <=? 13)%nat) || (n =? 32)%nat.

Definition isDigit (c : ascii) : bool :=
  let n := nat_of_ascii c in (48 <=? n)%nat && (n <=? 57)%nat.

Definition isEmpty (s : string) : bool :=
  match s with EmptyString => true | _ => false end.

Fixpoint trimStart (s : string) : string :=
  match s with
  | EmptyString => EmptyString
  | String c r => if isSpace c then trimStart r else s
  end.

Fixpoint trimEnd (s : string) : string :=
  match s with
  | EmptyString => EmptyString
  | String c r =>
      let r' := trimEnd r in
      if isSpace c && isEmpty r' then EmptyString else String c r'
  end.

Definition trim (s : string) : string := trimEnd (trimStart s).

(** [s.includes(needle)]. *)
Fixpoint includes (needle s : string) : bool :=
  String.prefix needle s ||
  match s with
  | EmptyString => false
  | String _ r => includes needle r
  end.

(** [s.slice(0, n)]. *)
Fixpoint sliceTo (n : nat) (s : string) : string :=
  match n, s with
  | O, _ => EmptyString
  | _, EmptyString => EmptyString
  | S k, String c r => String c (sliceTo k r)
  end.

(** [s.slice(n)]. *)
Fixpoint sliceFrom (n : nat) (s : string) : string :=
  match n, s with
  | O, _ => s
  | _, EmptyString => EmptyString
  | S k, String _ r => sliceFrom k r
  end.

(** [s.replace(/[()\-\s]/g, '')]. *)
Definition isPhonePunct (c : ascii) : bool :=
  Ascii.eqb c "("%char || Ascii.eqb c ")"%char || Ascii.eqb c "-"%char || isSpace c.

Fixpoint stripPhonePunct (s : string) : string :=
  match s with
  | EmptyString => EmptyString
  | String c r =>
      if isPhonePunct c then stripPhonePunct r else String c (stripPhonePunct r)
  end.

(** [/^\d+$/.test(s)]. *)
Fixpoint allDigits (s : string) : bool :=
  match s with
  | EmptyString => true
  | String c r => isDigit c && allDigits r
  end.

Definition isDigitString (s : string) : bool := negb (isEmpty s) && allDigits s.

(** [arr.includes(x)] on an array of strings. *)
Definition arrayIncludes (x : string) (arr : list string) : bool :=
  existsb (String.eqb x) arr.

(** Lookup in an object literal used as a table. *)
Fixpoint tableGet {A} (k : string) (t : list (string * A)) : option A :=
  match t with
  | [] => None
  | (k', v) :: r => if String.eqb k k' then Some v else tableGet k r
  end.

(** ** Leads and evaluation results *)

(** A lead as read from [data/leads.json].  [channel], [sentiment] and
    [phoneNumber] are read defensively by the code ([?? ''], [typeof]), so a
    missing or non-string value is [None]. *)
Record Lead : Type := mkLead {
  id : string;
  name : string;
  goal : string;
  offer : string;
  message : string;
  channel : option string;
  objectionType : string;
  sentiment : option string;
  phoneNumber : option string
}.

Record EvaluationResult : Type := mkResult {
  score : Q;
  conversionProbability : Q;
  source : string;
  notes : option string
}.

(** ** llm-evaluator.mjs *)

Record EvaluatorConfig : Type := mkConfig {
  mode : string;      (* EVALUATOR_MODE, lower-cased *)
  apiKey : string     (* EVALUATOR_API_KEY *)
}.

Definition shouldUseLlm (config : EvaluatorConfig) : bool :=
  if String.eqb (mode config) "rule" then false
  else if String.eqb (mode config) "llm" then true
  else negb (isEmpty (apiKey config)).

(** What [normalizeScoring] reads off the object it is given:
    [Number(raw?.score)], [Number(raw?.conversionProbability)] and
    [raw?.notes] when it is a string. *)
Record RawScoring : Type := mkRaw {
  rawScore : JsNumber;
  rawProbability : JsNumber;
  rawNotes : option string
}.

Record Scoring : Type := mkScoring {
  nScore : Q;
  nProbability : Q;
  nNotes : option string
}.

Definition normalizeScoring (raw : RawScoring) : option Scoring :=
  match rawScore raw, rawProbability raw with
  | Finite s, Finite p =>
      let boundedScore := Qmax 1 (Qmin 10 s) in
      let boundedProb := Qmax 0.05 (Qmin 0.95 p) in
      Some {| nScore := toFixed 2 boundedScore;
              nProbability := toFixed 2 boundedProb;
              nNotes := sliceTo 300 <$> rawNotes raw |}
  | _, _ => None
  end.

Definition objectionBoost : list (string * list (string * Q)) :=
  [ ("price",      [("consultative", 1.0); ("social_proof", 0.7); ("urgent_offer", 0.2)]);
    ("trust",      [("consultative", 0.8); ("social_proof", 1.2); ("urgent_offer", 0.2)]);
    ("timing",     [("consultative", 0.6); ("social_proof", 0.4); ("urgent_offer", 1.1)]);
    ("results",    [("consultative", 0.7); ("social_proof", 1.0); ("urgent_offer", 0.3)]);
    ("complexity", [("consultative", 1.1); ("social_proof", 0.5); ("urgent_offer", 0.1)]);
    ("urgency",    [("consultative", 0.5); ("social_proof", 0.4); ("urgent_offer", 1.0)]) ]%Q.

Definition sentimentPenalty : list (string * Q) :=
  [ ("skeptical", -0.2); ("overwhelmed", -0.2) ]%Q.

(** The score before clamping, one line of the source per binding. *)
Definition ruleScore (lead : Lead) (strategy response : string) : Q :=
  let score := 5.5%Q in
  let score := (score + default 0.2 (tableGet (objectionType lead) objectionBoost
                                       ≫= tableGet strategy))%Q in
  let score := if includes (name lead) response then (score + 0.4)%Q else score in
  let score := if includes (goal lead) response then (score + 0.6)%Q else score in
  let score := if includes "step" (toLowerCase response) then (score + 0.4)%Q else score in
  let score := if includes "week" (toLowerCase response) then (score + 0.2)%Q else score in
  let score := (score + default 0 (sentiment lead ≫= λ s, tableGet s sentimentPenalty))%Q in
  let score :=
    if String.eqb strategy "urgent_offer" &&
       match sentiment lead with
       | Some s => arrayIncludes s ["skeptical"; "overwhelmed"]
       | None => false
       end
    then (score - 0.3)%Q else score in
  score.

Definition evaluateByRules (lead : Lead) (strategy response : string) : EvaluationResult :=
  let bounded := Qmax 1 (Qmin 10 (ruleScore lead strategy response)) in
  let conversionProbability := Qmax 0.05 (Qmin 0.92 ((bounded - 3) / 8)) in
  {| score := toFixed 2 bounded;
     conversionProbability := toFixed 2 conversionProbability;
     source := "rule";
     notes := None |}.

(** The reply of the scoring backend as [evaluateByLlm] meets it.  JSON
    parsing is not modelled: a reply carries what the parsers deliver. *)
Record LlmContent : Type := mkContent {
  contentText : string;   (* String(parsed?.choices?.[0]?.message?.content ?? '') *)
  contentScoring : RawScoring  (* parseJsonObjectFromText of it, as normalizeScoring reads it *)
}.

Inductive LlmReply : Type :=
| FetchRejected (error : string)
    (* fetch threw: a network error, or the abort fired after timeoutMs;
       the argument is String(error) *)
| HttpFailure (status : string) (rawText : string)
    (* !res.ok; the status as the template prints it *)
| BodyNotJson (rawText : string)
    (* JSON.parse(rawText) threw *)
| BodyParsed (content : LlmContent).

Inductive LlmResult : Type :=
| LlmOk (value : EvaluationResult)
| LlmError (error : string).

Definition evaluateByLlm (reply : LlmReply) : LlmResult :=
  match reply with
  | FetchRejected error => LlmError ("LLM request failed: " ++ error)
  | HttpFailure status rawText =>
      LlmError ("LLM HTTP " ++ status ++ ": " ++ sliceTo 400 rawText)
  | BodyNotJson rawText =>
      LlmError ("LLM response is not JSON: " ++ sliceTo 400 rawText)
  | BodyParsed content =>
      match normalizeScoring (contentScoring content) with
      | None =>
          LlmError ("LLM returned invalid scoring payload: "
                    ++ sliceTo 400 (contentText content))
      | Some normalized =>
          LlmOk {| score := nScore normalized;
                   conversionProbability := nProbability normalized;
                   source := "llm";
                   notes := nNotes normalized |}
      end
  end.

Definition evaluateLeadAdaptive (config : EvaluatorConfig) (reply : LlmReply)
    (lead : Lead) (strategy response : string) : EvaluationResult :=
  if negb (shouldUseLlm config) then evaluateByRules lead strategy response
  else
    match evaluateByLlm reply with
    | LlmOk value => value
    | LlmError error =>
        let fallback := evaluateByRules lead strategy response in
        {| score := score fallback;
           conversionProbability := conversionProbability fallback;
           source := "rule_fallback";
           notes := Some error |}
    end.

(** ** elevenlabs-outbound.mjs *)

Definition normalizeE164Phone (raw : option string) : option string :=
  let trimmed := trim (default "" raw) in
  if isEmpty trimmed then None
  else
    let cleaned := stripPhonePunct trimmed in
    if negb (String.prefix "+" cleaned) then None
    else
      let digits := sliceFrom 1 cleaned in
      if negb (isDigitString digits) then None
      else if (String.length digits <? 8)%nat || (15 <? String.length digits)%nat
           then None
           else Some ("+" ++ digits).

(** The environment after [getEnv] (trimmed, defaults applied). *)
Record VoiceEnv : Type := mkVoiceEnv {
  VOICE_MODE : string;
  ELEVENLABS_OUTBOUND_CALL_URL : string;
  ELEVENLABS_API_KEY : string;
  ELEVENLABS_AGENT_ID : string;
  ELEVENLABS_AGENT_PHONE_NUMBER_ID : string
}.

(** What the dispatcher does to the outside world, in order. *)
Inductive Effect : Type :=
| PostCall (url : string) (to_number : string)   (* fetch(outboundUrl, ...) *)
| WriteArtifacts.                                 (* data/voice-calls-latest.json *)

Record CallResult : Type := mkCall {
  ok : bool;
  status : string;
  callMode : option string;
  callError : option string;
  to_number : option string   (* request.payload.to_number *)
}.

(** [fetchReply] is [res.ok] of the provider's answer, [None] when [fetch]
    rejects; the rejection is not caught, so the call itself fails. *)
Definition startElevenLabsOutboundCall (env : VoiceEnv) (fetchReply : option bool)
    (toNumberRaw : option string) : option (CallResult * list Effect) :=
  match normalizeE164Phone toNumberRaw with
  | None =>
      Some ({| ok := false; status := "INVALID_PHONE"; callMode := None;
               callError := Some ("Invalid E.164 phone: " ++ default "undefined" toNumberRaw);
               to_number := None |}, [])
  | Some toNumber =>
      if negb (String.eqb (VOICE_MODE env) "live") then
        Some ({| ok := true; status := "SIMULATED"; callMode := Some (VOICE_MODE env);
                 callError := None; to_number := Some toNumber |}, [WriteArtifacts])
      else if isEmpty (ELEVENLABS_API_KEY env) || isEmpty (ELEVENLABS_AGENT_ID env)
              || isEmpty (ELEVENLABS_AGENT_PHONE_NUMBER_ID env) then
        Some ({| ok := false; status := "MISSING_CONFIG"; callMode := None;
                 callError := Some "Set ELEVENLABS_API_KEY, ELEVENLABS_AGENT_ID, ELEVENLABS_AGENT_PHONE_NUMBER_ID for live calls.";
                 to_number := None |}, [])
      else
        match fetchReply with
        | None => None
        | Some resOk =>
            Some ({| ok := resOk; status := if resOk then "OK" else "HTTP_ERROR";
                     callMode := None; callError := None;
                     to_number := Some toNumber |},
                  [PostCall (ELEVENLABS_OUTBOUND_CALL_URL env) toNumber; WriteArtifacts])
        end
  end.

(** ** run.mjs: data *)

Definition STRATEGIES : list string := ["consultative"; "social_proof"; "urgent_offer"].
Definition TEXT_CHANNELS : list string := ["instagram_dm"; "whatsapp"].

Record StrategyStats : Type := mkStats {
  uses : Z;
  totalScore : Q;
  avgScore : Q
}.

(** [memory.policy]; a field absent from the file is [None] and the code
    reads it through [??] with a default. *)
Record Policy : Type := mkPolicy {
  epsilon : option Q;
  decay : option Q;
  minEpsilon : option Q
}.

Record HistoryEvent : Type := mkHistory {
  h_timestamp : string;
  h_epoch : Z;
  h_leadId : string;
  h_objectionType : string;
  h_strategy : string;
  h_score : Q;
  h_conversionProbability : Q;
  h_responsePreview : string
}.

Record Memory : Type := mkMemory {
  runs : Z;
  policy : Policy;
  strategyStats : gmap string StrategyStats;
  objectionPolicy : gmap string string;
  history : list HistoryEvent
}.

(** [INITIAL_MEMORY] of reset.mjs. *)
Definition INITIAL_MEMORY : Memory :=
  {| runs := 0;
     policy := {| epsilon := Some 0.45%Q; decay := Some 0.7%Q; minEpsilon := Some 0.05%Q |};
     strategyStats :=
       <["consultative" := mkStats 0 0 0]>
       (<["social_proof" := mkStats 0 0 0]>
       (<["urgent_offer" := mkStats 0 0 0]> ∅));
     objectionPolicy := ∅;
     history := [] |}.

(** ** run.mjs: templates *)

Definition joinSpace (parts : list string) : string :=
  match parts with
  | [] => ""
  | p :: r => fold_left (λ acc q, acc ++ " " ++ q) r p
  end.

Definition STRATEGY_TEMPLATES : list (string * (Lead → string)) :=
  [ ("consultative", λ lead, joinSpace
      [ "Totally fair point, " ++ name lead ++ ". Before recommending anything expensive, I want to map your exact goal: " ++ goal lead ++ ".";
        "If we can solve your " ++ objectionType lead ++ " concern with a low-risk first step, would you be open to a quick start this week?";
        "I can offer a structured first step and a clear success checkpoint so you can decide based on results, not promises." ]);
    ("social_proof", λ lead, joinSpace
      [ name lead ++ ", great question. We recently helped clients with the same concern (" ++ objectionType lead ++ ") and they converted after seeing a guided first win in week 1.";
        "For your case (" ++ offer lead ++ "), we can start with the same proven sequence and track progress clearly.";
        "If you want, I can share the exact 3-step plan and reserve your onboarding slot." ]);
    ("urgent_offer", λ lead, joinSpace
      [ name lead ++ ", understood. To reduce risk, we can lock a fast-start option today and keep commitment light.";
        "This lets you test " ++ offer lead ++ " quickly and decide from real momentum, not overthinking.";
        "If we start now, I can secure the current onboarding window and set your first measurable milestone this week." ]) ].

(** [STRATEGY_TEMPLATES[strategy]({ lead })]; an unknown strategy raises. *)
Definition buildResponse (strategy : string) (lead : Lead) : option string :=
  (λ template, template lead) <$> tableGet strategy STRATEGY_TEMPLATES.

(** ** run.mjs: selection *)

Definition getAverage (stats : StrategyStats) : Q :=
  if (0 <? uses stats)%Z then (totalScore stats / inject_Z (uses stats))%Q else 0%Q.

(** [memory.strategyStats[strategy]?.avgScore ?? 0]. *)
Definition storedAverage (memory : Memory) (strategy : string) : Q :=
  default 0%Q (avgScore <$> strategyStats memory !! strategy).

(** One turn of the loop of [pickBestStrategy]; the running maximum is
    [None] while it is still [-Infinity]. *)
Definition bestStep (memory : Memory) (acc : string * option Q) (strategy : string)
    : string * option Q :=
  let avg := storedAverage memory strategy in
  match snd acc with
  | None => (strategy, Some avg)
  | Some bestScore => if Qltb bestScore avg then (strategy, Some avg) else acc
  end.

Definition bestByAverage (memory : Memory) (catalog : list string) : string :=
  fst (fold_left (bestStep memory) catalog (default "" (head catalog), None)).

Definition pickBestStrategy (memory : Memory) (objectionType : string) : string :=
  match objectionPolicy memory !! objectionType with
  | Some mapped =>
      if negb (isEmpty mapped) && arrayIncludes mapped STRATEGIES then mapped
      else bestByAverage memory STRATEGIES
  | None => bestByAverage memory STRATEGIES
  end.

(** [STRATEGIES[index % STRATEGIES.length]]; [undefined] is [None]. *)
Definition pickWarmupStrategy (index : nat) : option string :=
  STRATEGIES !! (index mod length STRATEGIES)%nat.

(** Line 195 of [main]: the choice between the two pickers. *)
Definition selectStrategy (epoch warmupEpochs : Z) (index : nat) (memory : Memory)
    (objectionType : string) : option string :=
  if (epoch <=? warmupEpochs)%Z then pickWarmupStrategy index
  else Some (pickBestStrategy memory objectionType).

(** ** run.mjs: memory update *)

(** One turn of the loop over [Object.entries(candidateScores)]. *)
Definition bestForLeadStep (acc : string * Q) (entry : string * EvaluationResult)
    : string * Q :=
  if Qltb (snd acc) (score (snd entry)) then (fst entry, score (snd entry)) else acc.

Definition bestForLead (strategy : string) (result : EvaluationResult)
    (candidateScores : list (string * EvaluationResult)) : string :=
  fst (fold_left bestForLeadStep candidateScores (strategy, score result)).

(** [history.push(e)] followed by the cap. *)
Definition pushCapped (history : list HistoryEvent) (e : HistoryEvent) : list HistoryEvent :=
  let pushed := (history ++ [e])%list in
  if (200 <? length pushed)%nat then drop (length pushed - 200) pushed else pushed.

(** [now] is [new Date().toISOString()] at the call. *)
Definition updateMemory (memory : Memory) (lead : Lead) (strategy : string)
    (result : EvaluationResult) (epoch : Z) (response : string)
    (candidateScores : list (string * EvaluationResult)) (now : string)
    : option Memory :=
  stats ← strategyStats memory !! strategy;
  let uses' := (uses stats + 1)%Z in
  let totalScore' := toFixed 4 (totalScore stats + score result) in
  let avgScore' := toFixed 4 (getAverage (mkStats uses' totalScore' (avgScore stats))) in
  let stats' := mkStats uses' totalScore' avgScore' in
  let event :=
    {| h_timestamp := now;
       h_epoch := epoch;
       h_leadId := id lead;
       h_objectionType := objectionType lead;
       h_strategy := strategy;
       h_score := score result;
       h_conversionProbability := conversionProbability result;
       h_responsePreview := sliceTo 180 response |} in
  Some {| runs := runs memory;
          policy := policy memory;
          strategyStats := <[strategy := stats']> (strategyStats memory);
          objectionPolicy :=
            <[objectionType lead := bestForLead strategy result candidateScores]>
              (objectionPolicy memory);
          history := pushCapped (history memory) event |}.

(** ** run.mjs: exploration decay *)

Definition currentRate (p : Policy) : Q := default 0.2%Q (epsilon p).
Definition decayFactor (p : Policy) : Q := default 0.8%Q (decay p).
Definition floorRate (p : Policy) : Q := default 0.05%Q (minEpsilon p).

Definition decayedRate (p : Policy) : Q :=
  toFixed 4 (Qmax (floorRate p) (currentRate p * decayFactor p)).

Definition decayExploration (memory : Memory) : Memory :=
  {| runs := runs memory;
     policy := {| epsilon := Some (decayedRate (policy memory));
                  decay := decay (policy memory);
                  minEpsilon := minEpsilon (policy memory) |};
     strategyStats := strategyStats memory;
     objectionPolicy := objectionPolicy memory;
     history := history memory |}.

(** ** run.mjs: escalation *)

Definition hasTextChannel (lead : Lead) : bool :=
  arrayIncludes (toLowerCase (default "" (channel lead))) TEXT_CHANNELS.

Definition hasPhone (lead : Lead) : bool :=
  match phoneNumber lead with
  | Some p => (0 <? String.length (trim p))%nat
  | None => false
  end.

Definition frictionSignal (lead : Lead) (result : EvaluationResult) : bool :=
  let sentiment := toLowerCase (default "" (sentiment lead)) in
  String.eqb sentiment "skeptical" ||
  String.eqb sentiment "hesitant" ||
  String.eqb sentiment "overwhelmed" ||
  Qltb (conversionProbability result) 0.58.

Definition shouldEscalateToVoice (lead : Lead) (result : EvaluationResult)
    (epoch minEpochForVoice : Z) : bool :=
  (minEpochForVoice <=? epoch)%Z && hasTextChannel lead && hasPhone lead
  && frictionSignal lead result.

(** The [voice] field of a round event. *)
Inductive VoiceOutcome : Type :=
| NotAttempted (reason : string)
| Attempted (call : CallResult).

Definition attempted (v : VoiceOutcome) : bool :=
  match v with Attempted _ => true | NotAttempted _ => false end.

(** ** run.mjs: the round loop of [main] *)

(** An entry of [events]; the fields the report derives from the sorted
    candidate list are left out. *)
Record RoundEvent : Type := mkEvent {
  e_leadId : string;
  e_name : string;
  e_textChannel : option string;
  e_objectionType : string;
  e_strategy : string;
  e_score : Q;
  e_conversionProbability : Q;
  e_voice : VoiceOutcome;
  e_evaluator : string
}.

Record Round : Type := mkRound {
  r_epoch : Z;
  r_avgScore : Q;
  r_events : list RoundEvent
}.

Definition average (values : list Q) : Q :=
  match values with
  | [] => 0%Q
  | _ => (fold_left Qplus values 0 / inject_Z (Z.of_nat (length values)))%Q
  end.

Section Main.

(** The collaborators of one run. *)
Variable evaluate : Lead → string → string → EvaluationResult.
  (* evaluateLeadAdaptive under the run's configuration and backend *)
Variable startCall : option string → option CallResult.
  (* startElevenLabsOutboundCall under the run's environment and network *)
Variable clock : Z → nat → string.
  (* the time read while lead [k] of round [epoch] is recorded *)

(** The command line. *)
Variable warmupEpochs : Z.
Variable minEpochForVoice : Z.
Variable voiceChannelEnabled : bool.

Definition maybeStartVoiceFollowup (lead : Lead) : option VoiceOutcome :=
  if negb voiceChannelEnabled then Some (NotAttempted "VOICE_CHANNEL_DISABLED")
  else Attempted <$> startCall (phoneNumber lead).

(** The inner loop that fills [candidateScores], one entry per strategy
    of the catalog, in catalog order. *)
Definition evaluateCandidates (lead : Lead) : option (list (string * EvaluationResult)) :=
  mapM (λ candidateStrategy,
          candidateResponse ← buildResponse candidateStrategy lead;
          Some (candidateStrategy, evaluate lead candidateStrategy candidateResponse))
       STRATEGIES.

(** The body of [for (const lead of leads)]. *)
Definition processLead (epoch : Z) (memory : Memory) (events : list RoundEvent)
    (lead : Lead) : option (Memory * list RoundEvent) :=
  strategy ← selectStrategy epoch warmupEpochs (length events) memory (objectionType lead);
  candidateScores ← evaluateCandidates lead;
  response ← buildResponse strategy lead;
  result ← tableGet strategy candidateScores;
  memory' ← updateMemory memory lead strategy result epoch response candidateScores
              (clock epoch (length events));
  voice ← (if shouldEscalateToVoice lead result epoch minEpochForVoice
           then maybeStartVoiceFollowup lead
           else Some (NotAttempted "NO_ESCALATION"));
  Some (memory',
        (events ++ [ {| e_leadId := id lead;
                        e_name := name lead;
                        e_textChannel := channel lead;
                        e_objectionType := objectionType lead;
                        e_strategy := strategy;
                        e_score := score result;
                        e_conversionProbability := conversionProbability result;
                        e_voice := voice;
                        e_evaluator := source result |} ])%list).

Fixpoint processLeads (epoch : Z) (memory : Memory) (events : list RoundEvent)
    (leads : list Lead) : option (Memory * list RoundEvent) :=
  match leads with
  | [] => Some (memory, events)
  | lead :: rest =>
      '(memory', events') ← processLead epoch memory events lead;
      processLeads epoch memory' events' rest
  end.

(** One turn of [for (let epoch = 1; ...)]: the leads, then the decay and
    the run counter. *)
Definition runEpoch (epoch : Z) (memory : Memory) (leads : list Lead)
    : option (Memory * Round) :=
  '(memory', events) ← processLeads epoch memory [] leads;
  let epochAvg := toFixed 3 (average (e_score <$> events)) in
  let decayed := decayExploration memory' in
  Some ({| runs := (runs decayed + 1)%Z;
           policy := policy decayed;
           strategyStats := strategyStats decayed;
           objectionPolicy := objectionPolicy decayed;
           history := history decayed |},
        {| r_epoch := epoch; r_avgScore := epochAvg; r_events := events |}).

Fixpoint runEpochs (remaining : nat) (epoch : Z) (memory : Memory)
    (rounds : list Round) (leads : list Lead) : option (Memory * list Round) :=
  match remaining with
  | O => Some (memory, rounds)
  | S k =>
      '(memory', round) ← runEpoch epoch memory leads;
      runEpochs k (epoch + 1)%Z memory' (rounds ++ [round])%list leads
  end.

Definition main (epochs : Z) (memory : Memory) (leads : list Lead)
    : option (Memory * list Round) :=
  runEpochs (Z.to_nat epochs) 1%Z memory [] leads.

End Main.

(** The strategies a round assigned, in lead order. *)
Definition assigned (events : list RoundEvent) : list string := e_strategy <$> events.

(** ** Properties the claims speak about *)

(** Every strategy of the catalog has its statistics (the shape of
    [data/memory.json]). *)
Definition hasCatalogStats (memory : Memory) : Prop :=
  ∀ s, s ∈ STRATEGIES → is_Some (strategyStats memory !! s).





(** Some character of the string is not white space. *)
Fixpoint hasVisibleChar (s : string) : Prop :=
  match s with
  | EmptyString => False
  | String c r => isSpace c = false ∨ hasVisibleChar r
  end.



(** ** Sample inputs for the examples *)

Definition sampleLead : Lead :=
  {| id := "lead-001"; name := "Amira"; goal := "launch an online store";
     offer := "the Growth plan"; message := "This looks expensive for me.";
     channel := Some "WhatsApp"; objectionType := "price";
     sentiment := Some "skeptical"; phoneNumber := Some "+971501234567" |}.

Definition withPhone (lead : Lead) (p : option string) : Lead :=
  {| id := id lead; name := name lead; goal := goal lead; offer := offer lead;
     message := message lead; channel := channel lead;
     objectionType := objectionType lead; sentiment := sentiment lead;
     phoneNumber := p |}.

Definition sampleResult (s p : Q) : EvaluationResult :=
  {| score := s; conversionProbability := p; source := "rule"; notes := None |}.

Definition sampleCandidates : list (string * EvaluationResult) :=
  [ ("consultative", sampleResult 8.1 0.64);
    ("social_proof", sampleResult 8.4 0.68);
    ("urgent_offer", sampleResult 6.5 0.44) ].


Definition dryRunEnv : VoiceEnv :=
  {| VOICE_MODE := "dry-run";
     ELEVENLABS_OUTBOUND_CALL_URL := "https://api.elevenlabs.io/v1/convai/twilio/outbound-call";
     ELEVENLABS_API_KEY := ""; ELEVENLABS_AGENT_ID := "";
     ELEVENLABS_AGENT_PHONE_NUMBER_ID := "" |}.


Definition llmConfig : EvaluatorConfig := {| mode := "llm"; apiKey := "key" |}.

(** The end-to-end scenario of the specification: three leads with the
    objections price, trust and timing, the rule evaluator, a dry-run
    dispatcher, one warm-up round and escalation from round 2. *)
Definition scenarioLeads : list Lead :=
  [ sampleLead;
    {| id := "lead-002"; name := "Omar"; goal := "book more clinic visits";
       offer := "the Starter plan"; message := "How do I know this works?";
       channel := Some "instagram_dm"; objectionType := "trust";
       sentiment := Some "curious"; phoneNumber := Some "+971 50 765 4321" |};
    {| id := "lead-003"; name := "Lina"; goal := "fill her yoga classes";
       offer := "the Studio plan"; message := "Maybe next quarter.";
       channel := Some "email"; objectionType := "timing";
       sentiment := Some "hesitant"; phoneNumber := None |} ].

Definition ruleEvaluator : Lead → string → string → EvaluationResult :=
  evaluateLeadAdaptive {| mode := "rule"; apiKey := "" |} (FetchRejected "").

Definition dryRunCall (p : option string) : option CallResult :=
  fst <$> startElevenLabsOutboundCall dryRunEnv None p.

Definition fixedClock (epoch : Z) (k : nat) : string := "2026-01-01T00:00:00.000Z".

Definition scenarioRound1 : option (Memory * Round) :=
  runEpoch ruleEvaluator dryRunCall fixedClock 1 2 true 1 INITIAL_MEMORY scenarioLeads.

Definition scenarioRound2 : option (Memory * Round) :=
  '(memory1, _) ← scenarioRound1;
  runEpoch ruleEvaluator dryRunCall fixedClock 1 2 true 2 memory1 scenarioLeads.

(** A memory whose history is at the cap. *)
Definition oldEvent : HistoryEvent :=
  {| h_timestamp := "2025-12-31T00:00:00.000Z"; h_epoch := 1; h_leadId := "lead-000";
     h_objectionType := "price"; h_strategy := "consultative"; h_score := 7.5%Q;
     h_conversionProbability := 0.56%Q; h_responsePreview := "reply" |}.

Definition fullMemory : Memory :=
  {| runs := 67; policy := policy INITIAL_MEMORY;
     strategyStats := strategyStats INITIAL_MEMORY;
     objectionPolicy := ∅; history := replicate 200 oldEvent |}.




(** ** run.mjs: command line and report *)

(** [s.split(sep)] for a separator of one character. *)
Fixpoint splitOn (sep : ascii) (s : string) : list string :=
  match s with
  | EmptyString => [EmptyString]
  | String c r =>
      if Ascii.eqb c sep then EmptyString :: splitOn sep r
      else match splitOn sep r with
           | piece :: pieces => String c piece :: pieces
           | [] => [String c EmptyString]
           end
  end.

(** [getArg(name, fallback)] over [process.argv]. *)
Definition getArg (argv : list string) (name fallback : string) : string :=
  match List.find (String.prefix ("--" ++ name ++ "=")) argv with
  | None => fallback
  | Some found =>
      match splitOn "="%char found with
      | _ :: value :: _ => value
      | _ => fallback
      end
  end.

(** [report.summary] of [main]. *)
Record Summary : Type := mkSummary {
  firstEpochAvg : Q;
  lastEpochAvg : Q;
  delta : Q
}.

Definition summarize (rounds : list Round) : Summary :=
  let first := default 0%Q (r_avgScore <$> head rounds) in
  let final := default 0%Q (r_avgScore <$> last rounds) in
  {| firstEpochAvg := first;
     lastEpochAvg := final;
     delta := toFixed 3 (final - first) |}.

(** [arr.slice(-n)]. *)
Definition sliceLast {A} (n : nat) (l : list A) : list A := drop (length l - n) l.

(** The history entry [updateMemory] records for a round event at time
    [now]. *)
Definition historyEntry (epoch : Z) (lead : Lead) (strategy : string)
    (result : EvaluationResult) (response now : string) : HistoryEvent :=
  {| h_timestamp := now; h_epoch := epoch; h_leadId := id lead;
     h_objectionType := objectionType lead; h_strategy := strategy;
     h_score := score result;
     h_conversionProbability := conversionProbability result;
     h_responsePreview := sliceTo 180 response |}.

(** How often a round assigned a strategy, and the scores it earned. *)
Definition timesAssigned (s : string) (events : list RoundEvent) : Z :=
  Z.of_nat (length (filter (λ e, e_strategy e = s) events)).


(** ** llm-evaluator.mjs: recovering an object from a reply *)

(** [s.indexOf(c)] and [s.lastIndexOf(c)]; [-1] is [None]. *)
Fixpoint indexOfChar (c : ascii) (s : string) : option nat :=
  match s with
  | EmptyString => None
  | String d r => if Ascii.eqb d c then Some O else S <$> indexOfChar c r
  end.

Fixpoint lastIndexOfChar (c : ascii) (s : string) : option nat :=
  match s with
  | EmptyString => None
  | String d r =>
      match lastIndexOfChar c r with
      | Some i => Some (S i)
      | None => if Ascii.eqb d c then Some O else None
      end
  end.

(** [s.slice(i, j)] for [0 <= i]. *)
Definition sliceRange (i j : nat) (s : string) : string := sliceTo (j - i) (sliceFrom i s).

Section ParseJson.

(** [JSON.parse]; [None] when it throws. *)
Context {Json : Type}.
Variable parse : string → option Json.

(** [raw] is [None] for a value that is not a string; the result [None] is
    the [null] the function returns. *)
Definition parseJsonObjectFromText (raw : option string) : option Json :=
  match raw with
  | None => None
  | Some raw =>
      if isEmpty raw then None
      else
        match parse raw with
        | Some value => Some value
        | None =>
            match indexOfChar "{"%char raw, lastIndexOfChar "}"%char raw with
            | Some first, Some final =>
                if (final <=? first)%nat then None
                else parse (sliceRange first (final + 1) raw)
            | _, _ => None
            end
        end
  end.

End ParseJson.

(** ** webhook server (src/unnamed/part_004): signatures *)

(** [allChars p s]: every character of [s] passes [p]. *)
Fixpoint allChars (p : ascii → bool) (s : string) : bool :=
  match s with
  | EmptyString => true
  | String c r => p c && allChars p r
  end.

(** A character that is neither white space nor one of the two separators of
    a signature header; a word of such characters. *)
Definition plainChar (c : ascii) : bool :=
  negb (isSpace c) && negb (Ascii.eqb c ","%char) && negb (Ascii.eqb c "="%char).

Definition plainWord (s : string) : Prop := s ≠ "" ∧ allChars plainChar s = true.

(** One header of [req.headers]: absent, a string, or an array of strings. *)
Inductive HeaderValue : Type :=
| HeaderAbsent
| HeaderString (s : string)
| HeaderArray (items : list string).

(** What one header gives [getSignatureHeader]; [None] when the function goes
    on to the next header. *)
Definition headerCandidate (v : HeaderValue) : option string :=
  match v with
  | HeaderString s => if isEmpty (trim s) then None else Some (trim s)
  | HeaderArray (first :: _) => Some (trim first)
  | _ => None
  end.

(** [direct] is [headers['elevenlabs-signature']], [alt] is
    [headers['x-elevenlabs-signature']]. *)
Definition getSignatureHeader (direct alt : HeaderValue) : string :=
  match headerCandidate direct with
  | Some text => text
  | None => default "" (headerCandidate alt)
  end.

Record SignatureHeader : Type := mkSignatureHeader {
  sh_timestamp : option string;
  sh_signatures : list string
}.

Definition isTimestampKey (k : string) : bool :=
  String.eqb k "t" || String.eqb k "timestamp".

Definition isSignatureKey (k : string) : bool :=
  String.eqb k "v0" || String.eqb k "v1" || String.eqb k "sig" || String.eqb k "signature".

(** The body of the loop over the parts of the header. *)
Definition parsePart (acc : SignatureHeader) (part : string) : SignatureHeader :=
  match trim <$> splitOn "="%char part with
  | k :: v :: _ =>
      if isEmpty k || isEmpty v then acc
      else if isTimestampKey k then
        {| sh_timestamp := Some v; sh_signatures := sh_signatures acc |}
      else if isSignatureKey k then
        {| sh_timestamp := sh_timestamp acc; sh_signatures := (sh_signatures acc ++ [v])%list |}
      else acc
  | _ => acc
  end.

Definition headerParts (text : string) : list string :=
  List.filter (λ p, negb (isEmpty p)) (trim <$> splitOn ","%char text).

Definition parseSignatureHeader (raw : string) : SignatureHeader :=
  let text := trim raw in
  if isEmpty text then {| sh_timestamp := None; sh_signatures := [] |}
  else if negb (includes "=" text) then {| sh_timestamp := None; sh_signatures := [text] |}
  else fold_left parsePart (headerParts text) {| sh_timestamp := None; sh_signatures := [] |}.

(** The text of a header made of [key=value] parts, as a sender writes it. *)
Definition partText (p : string * string) : string := p.1 ++ "=" ++ p.2.

Fixpoint signatureHeaderText (pairs : list (string * string)) : string :=
  match pairs with
  | [] => ""
  | [p] => partText p
  | p :: rest => partText p ++ "," ++ signatureHeaderText rest
  end.

Definition plainPair (p : string * string) : Prop := plainWord p.1 ∧ plainWord p.2.

(** What the loop of [parseSignatureHeader] keeps of a part read as a pair. *)
Definition keepPart (acc : SignatureHeader) (p : string * string) : SignatureHeader :=
  if isTimestampKey p.1 then
    {| sh_timestamp := Some p.2; sh_signatures := sh_signatures acc |}
  else if isSignatureKey p.1 then
    {| sh_timestamp := sh_timestamp acc;
       sh_signatures := (sh_signatures acc ++ [p.2])%list |}
  else acc.

(** Every value of a parsed header is a text that is not empty. *)
Definition nonemptyValues (h : SignatureHeader) : Prop :=
  (∀ t, sh_timestamp h = Some t → t ≠ "") ∧ Forall (λ sig, sig ≠ "") (sh_signatures h).

(** The value of a hexadecimal digit. *)
Definition hexValue (c : ascii) : option N :=
  let n := N_of_ascii c in
  if (48 <=? n)%N && (n <=? 57)%N then Some (n - 48)%N
  else if (97 <=? n)%N && (n <=? 102)%N then Some (n - 87)%N
  else if (65 <=? n)%N && (n <=? 70)%N then Some (n - 55)%N
  else None.

Definition isHexDigit (c : ascii) : bool :=
  match hexValue c with Some _ => true | None => false end.

(** [Buffer.from(s, 'hex')]: two digits a byte, the decoding stops at the
    first pair that is not hexadecimal, a last single character is dropped. *)
Fixpoint hexDecode (s : string) : list N :=
  match s with
  | String a (String b r) =>
      match hexValue a, hexValue b with
      | Some x, Some y => (16 * x + y)%N :: hexDecode r
      | _, _ => []
      end
  | _ => []
  end.

Definition safeCompareHex (a b : string) : bool :=
  let aa := hexDecode a in
  let bb := hexDecode b in
  if (length aa =? 0)%nat || (length bb =? 0)%nat || negb (length aa =? length bb)%nat
  then false
  else bool_decide (aa = bb).

(** A text made of pairs of hexadecimal digits, as a digest written in
    hexadecimal. *)
Fixpoint hexPairs (s : string) : bool :=
  match s with
  | EmptyString => true
  | String a (String b r) => isHexDigit a && isHexDigit b && hexPairs r
  | _ => false
  end.

Definition hexDigest (s : string) : Prop := s ≠ "" ∧ hexPairs s = true.

(** [safeNumber(value, fallback)], on the value [Number] gives. *)
Definition safeNumber (n : JsNumber) (fallback : Q) : Q :=
  match n with
  | Finite q => q
  | _ => fallback
  end.

(** A value that is a string and not empty: what [if (ts)] and [x || y] let through. *)
Definition truthyText (v : option string) : option string :=
  match v with
  | Some t => if isEmpty t then None else Some t
  | None => None
  end.

Inductive Verification : Type :=
| Verified
| Refused (reason : string) (driftSeconds : option Q).

Section Webhook.

(** [hmacHex secret message] is
    [crypto.createHmac('sha256', secret).update(message).digest('hex')];
    [toNumber] is [Number] on a string. *)
Variable hmacHex : string → string → string.
Variable toNumber : string → JsNumber.

Definition signatureCandidates (secret rawBody : string) (ts : option string) : list string :=
  hmacHex secret rawBody ::
  match ts with
  | Some t => [hmacHex secret (t ++ "." ++ rawBody)]
  | None => []
  end.

Definition providedSignatures (parsed : SignatureHeader) (signatureHeader : string)
    : list string :=
  if (0 <? length (sh_signatures parsed))%nat then sh_signatures parsed
  else match truthyText (sh_timestamp parsed) with
       | Some _ => []
       | None => [trim signatureHeader]
       end.

(** [nowSec] is [Math.floor(Date.now() / 1000)]. *)
Definition verifySignature (rawBody signatureHeader secret : string)
    (toleranceSeconds : Q) (nowSec : Z) : Verification :=
  let parsed := parseSignatureHeader signatureHeader in
  let ts := truthyText (sh_timestamp parsed) in
  let candidates := signatureCandidates secret rawBody ts in
  let provided := providedSignatures parsed signatureHeader in
  let matched :=
    existsb (λ sig, existsb (λ cand, safeCompareHex sig cand) candidates) provided in
  if negb matched then Refused "BAD_SIGNATURE" None
  else
    match ts with
    | Some t =>
        match toNumber t with
        | Finite tsSec =>
            let drift := Qabs (inject_Z nowSec - tsSec) in
            if Qltb toleranceSeconds drift
            then Refused "SIGNATURE_EXPIRED" (Some drift)
            else Verified
        | _ => Refused "BAD_TIMESTAMP" None
        end
    | None => Verified
    end.

(** [signedBy secret rawBody parsed header sig]: [sig] is a signature the
    header provides and has the bytes, not none, of one of the two digests. *)
Definition signedBy (secret rawBody : string) (parsed : SignatureHeader) (header sig : string)
    : Prop :=
  (sig ∈ sh_signatures parsed
   ∨ (sh_signatures parsed = [] ∧ sh_timestamp parsed = None ∧ sig = trim header))
  ∧ hexDecode sig ≠ []
  ∧ (hexDecode sig = hexDecode (hmacHex secret rawBody)
     ∨ ∃ t, sh_timestamp parsed = Some t
            ∧ hexDecode sig = hexDecode (hmacHex secret (t ++ "." ++ rawBody))).

(** [timely parsed toleranceSeconds nowSec]: the timestamp of the header, when
    there is one, is a finite number at most [toleranceSeconds] from now. *)
Definition timely (parsed : SignatureHeader) (toleranceSeconds : Q) (nowSec : Z) : Prop :=
  ∀ t, sh_timestamp parsed = Some t →
       ∃ tsSec, toNumber t = Finite tsSec
                ∧ (Qabs (inject_Z nowSec - tsSec) <= toleranceSeconds)%Q.

(** The guard of the request handler of [main] (lines 250-276): [None] lets the
    request through to [handleWebhook], [Some (error, driftSeconds)] is the 401
    answer. *)
Definition signatureGuard (webhookSecret : string) (direct alt : HeaderValue)
    (rawBody : string) (toleranceSeconds : Q) (nowSec : Z) : option (string * option Q) :=
  if isEmpty webhookSecret then None
  else
    let signatureHeader := getSignatureHeader direct alt in
    if isEmpty signatureHeader then Some ("MISSING_SIGNATURE", None)
    else
      match verifySignature rawBody signatureHeader webhookSecret toleranceSeconds nowSec with
      | Verified => None
      | Refused reason drift => Some (reason, drift)
      end.

(** The header replay-webhook.mjs signs a body with (lines 27-34);
    [timestamp] is the text of [Math.floor(Date.now() / 1000)]. *)
Definition replaySignature (secret timestamp body : string) : string :=
  "t=" ++ timestamp ++ ",v0=" ++ hmacHex secret (timestamp ++ "." ++ body).

End Webhook.

(** ** webhook server: what is learnt from the calls *)

(** The fields of a call event that [upsertLearning] reads. *)
Record CallEvent : Type := mkCallEvent {
  c_receivedAt : string;
  c_conversationId : string;
  c_durationSeconds : Q;
  c_leadId : option string
}.

Record LeadLearning : Type := mkLeadLearning {
  ll_callsCount : Z;
  ll_totalDurationSeconds : Q;
  ll_avgDurationSeconds : Q;
  ll_lastConversationId : option string;
  ll_lastReceivedAt : option string
}.

Record Learning : Type := mkLearning {
  l_updatedAt : option string;
  l_callsCount : Z;
  l_totalDurationSeconds : Q;
  l_avgDurationSeconds : Q;
  l_byLeadId : gmap string LeadLearning
}.

Definition emptyLearning : Learning :=
  {| l_updatedAt := None; l_callsCount := 0; l_totalDurationSeconds := 0;
     l_avgDurationSeconds := 0; l_byLeadId := ∅ |}.

Definition emptyLeadLearning : LeadLearning :=
  {| ll_callsCount := 0; ll_totalDurationSeconds := 0; ll_avgDurationSeconds := 0;
     ll_lastConversationId := None; ll_lastReceivedAt := None |}.

(** [event.leadId || 'unknown']. *)
Definition leadKey (event : CallEvent) : string :=
  match truthyText (c_leadId event) with
  | Some k => k
  | None => "unknown"
  end.

Definition meanDuration (total : Q) (calls : Z) : Q :=
  toFixed 2 (total / inject_Z (Z.max 1 calls)).

(** [stored] is the learning file, [None] when it cannot be read or parsed;
    [now] is [new Date().toISOString()]. The result is what is written. *)
Definition upsertLearning (stored : option Learning) (event : CallEvent) (now : string)
    : Learning :=
  let learning := default emptyLearning stored in
  let calls := (l_callsCount learning + 1)%Z in
  let total := (l_totalDurationSeconds learning + c_durationSeconds event)%Q in
  let prev := default emptyLeadLearning (l_byLeadId learning !! leadKey event) in
  let prevCalls := (ll_callsCount prev + 1)%Z in
  let prevTotal := (ll_totalDurationSeconds prev + c_durationSeconds event)%Q in
  let entry :=
    {| ll_callsCount := prevCalls;
       ll_totalDurationSeconds := prevTotal;
       ll_avgDurationSeconds := meanDuration prevTotal prevCalls;
       ll_lastConversationId := truthyText (Some (c_conversationId event));
       ll_lastReceivedAt := Some (c_receivedAt event) |} in
  {| l_updatedAt := Some now;
     l_callsCount := calls;
     l_totalDurationSeconds := total;
     l_avgDurationSeconds := meanDuration total calls;
     l_byLeadId := <[leadKey event := entry]> (l_byLeadId learning) |}.

(** The learning file after a sequence of calls, each with the time of its
    write, starting without a file. *)
Definition learnFrom (calls : list (CallEvent * string)) : Learning :=
  fold_left (λ learning call, upsertLearning (Some learning) call.1 call.2)
            calls emptyLearning.





(** A digest and a reading of numbers for the examples. *)
Definition sampleDigest (secret message : string) : string :=
  if isEmpty secret then "00" else "5f2a".

Definition sampleNumber (text : string) : JsNumber :=
  if String.eqb text "1700000000" then Finite 1700000000%Q else NaN.

Definition sampleCalls : list (CallEvent * string) :=
  [ ({| c_receivedAt := "2026-01-01T10:00:00.000Z"; c_conversationId := "conv_1";
        c_durationSeconds := 61.5%Q; c_leadId := Some "lead_1" |},
     "2026-01-01T10:00:01.000Z");
    ({| c_receivedAt := "2026-01-01T11:00:00.000Z"; c_conversationId := "";
        c_durationSeconds := 30%Q; c_leadId := None |},
     "2026-01-01T11:00:01.000Z");
    ({| c_receivedAt := "2026-01-01T12:00:00.000Z"; c_conversationId := "conv_3";
        c_durationSeconds := 20.25%Q; c_leadId := Some "lead_1" |},
     "2026-01-01T12:00:01.000Z") ].

(** ** Proof automation *)


Ltac settle_effects :=
  repeat match goal with
         | H : _ ∧ _ |- _ => destruct H
         | H : ∃ _, _ |- _ => destruct H
         | H : _ ∨ _ |- _ => destruct H
         | H : is_Some None |- _ => destruct H as [? H]; discriminate H
         | H : _ ∈ [] |- _ => apply elem_of_nil in H; destruct H
         | H : _ ∈ _ :: _ |- _ => apply elem_of_cons in H
         end;
  try discriminate; try congruence;
  eauto 6 using list_elem_of_here, list_elem_of_further.


(** * Rounding *)

Section Rounding.
Local Open Scope Q_scope.

Lemma Qltb_lt (x y : Q) : Qltb x y = true ↔ x < y.
Proof.
  unfold Qltb. rewrite negb_true_iff, <- not_true_iff_false, Qle_bool_iff.
  split; [apply Qnot_le_lt | apply Qlt_not_le].
Qed.

Lemma Qltb_ge (x y : Q) : Qltb x y = false ↔ y <= x.
Proof.
  unfold Qltb. rewrite negb_false_iff, Qle_bool_iff. reflexivity.
Qed.

Lemma pow10_pos (f : nat) : (0 < pow10 f)%Z.
Proof. unfold pow10. apply Z.pow_pos_nonneg; lia. Qed.

Lemma pow10_Q_pos (f : nat) : 0 < inject_Z (pow10 f).
Proof. change 0 with (inject_Z 0). rewrite <- Zlt_Qlt. apply pow10_pos. Qed.

Lemma Qfloor_half_lower (x : Q) : x - (1 # 2) < inject_Z (Qfloor (x + (1 # 2))).
Proof.
  pose proof (Qlt_floor (x + (1 # 2))) as H.
  rewrite inject_Z_plus in H. change (inject_Z 1) with 1 in H. lra.
Qed.

Lemma Qfloor_half_upper (x : Q) : inject_Z (Qfloor (x + (1 # 2))) <= x + (1 # 2).
Proof. apply Qfloor_le. Qed.

(** The rounded integer is within one half of the number. *)
Lemma roundHalfAway_close (x : Q) :
  x - (1 # 2) <= inject_Z (roundHalfAway x) <= x + (1 # 2).
Proof.
  unfold roundHalfAway. destruct (Qle_bool 0 x) eqn:E.
  - pose proof (Qfloor_half_lower x). pose proof (Qfloor_half_upper x). lra.
  - rewrite inject_Z_opp.
    pose proof (Qfloor_half_lower (- x)). pose proof (Qfloor_half_upper (- x)). lra.
Qed.

Lemma roundHalfAway_Z (n : Z) : roundHalfAway (inject_Z n) = n.
Proof.
  pose proof (roundHalfAway_close (inject_Z n)) as [Hl Hu].
  assert (inject_Z n - 1 < inject_Z (roundHalfAway (inject_Z n))) as H1 by lra.
  assert (inject_Z (roundHalfAway (inject_Z n)) < inject_Z n + 1) as H2 by lra.
  change 1 with (inject_Z 1) in H1, H2.
  rewrite <- inject_Z_plus in H2.
  unfold Qminus in H1. rewrite <- inject_Z_opp, <- inject_Z_plus in H1.
  rewrite <- Zlt_Qlt in H1, H2. lia.
Qed.

Lemma roundHalfAway_comp (x y : Q) : x == y → roundHalfAway x = roundHalfAway y.
Proof.
  intros E. unfold roundHalfAway.
  rewrite (Qleb_comp 0 0 (Qeq_refl 0) x y E).
  destruct (Qle_bool 0 y); [apply Qfloor_comp | f_equal; apply Qfloor_comp]; rewrite E; reflexivity.
Qed.

Lemma roundHalfAway_mono (x y : Q) : x <= y → (roundHalfAway x <= roundHalfAway y)%Z.
Proof.
  intros Hxy. unfold roundHalfAway.
  destruct (Qle_bool 0 x) eqn:Ex, (Qle_bool 0 y) eqn:Ey.
  - apply Qfloor_resp_le. lra.
  - apply Qle_bool_iff in Ex. apply not_true_iff_false in Ey.
    rewrite Qle_bool_iff in Ey. lra.
  - apply not_true_iff_false in Ex. rewrite Qle_bool_iff in Ex.
    apply Qle_bool_iff in Ey.
    assert (0 <= Qfloor (- x + (1 # 2)))%Z.
    { rewrite <- (Qfloor_Z 0). apply Qfloor_resp_le. change (inject_Z 0) with 0. lra. }
    assert (0 <= Qfloor (y + (1 # 2)))%Z.
    { rewrite <- (Qfloor_Z 0). apply Qfloor_resp_le. change (inject_Z 0) with 0. lra. }
    lia.
  - assert (Qfloor (- y + (1 # 2)) <= Qfloor (- x + (1 # 2)))%Z; [| lia].
    apply Qfloor_resp_le. lra.
Qed.


Lemma toFixed_onGrid (f : nat) (x : Q) : onGrid f (toFixed f x).
Proof. eexists. reflexivity. Qed.

(** Rounding leaves a number of the grid where it is. *)
Lemma toFixed_grid (f : nat) (x : Q) : onGrid f x → toFixed f x == x.
Proof.
  intros [n Hn]. pose proof (pow10_Q_pos f) as Hp.
  unfold toFixed.
  rewrite (roundHalfAway_comp _ (inject_Z n)).
  - rewrite roundHalfAway_Z. symmetry. exact Hn.
  - rewrite Hn. field. lra.
Qed.

Lemma toFixed_mono (f : nat) (x y : Q) : x <= y → toFixed f x <= toFixed f y.
Proof.
  intros Hxy. pose proof (pow10_Q_pos f) as Hp. unfold toFixed.
  apply Qmult_le_compat_r.
  - rewrite <- Zle_Qle. apply roundHalfAway_mono.
    apply Qmult_le_compat_r; lra.
  - apply Qlt_le_weak, Qinv_lt_0_compat, Hp.
Qed.

(** Rounding keeps a number between two numbers of the grid. *)
Lemma toFixed_between (f : nat) (a x b : Q) :
  onGrid f a → onGrid f b → a <= x <= b → a <= toFixed f x <= b.
Proof.
  intros Ha Hb [H1 H2]. split.
  - rewrite <- (toFixed_grid f a Ha). apply toFixed_mono, H1.
  - rewrite <- (toFixed_grid f b Hb). apply toFixed_mono, H2.
Qed.


End Rounding.

(** * Strategy selection *)

Lemma arrayIncludes_elem_of (x : string) (arr : list string) :
  arrayIncludes x arr = true ↔ x ∈ arr.
Proof.
  unfold arrayIncludes. rewrite existsb_exists. split.
  - intros (y & Hin & Heq). apply String.eqb_eq in Heq. subst y.
    apply list_elem_of_In, Hin.
  - intros Hin. exists x. split; [apply list_elem_of_In, Hin | apply String.eqb_refl].
Qed.


Section BestByAverage.
Variable memory : Memory.
Local Open Scope Q_scope.

(** The loop invariant of [pickBestStrategy]: the running best is the
    first of the strategies seen so far that reaches their maximum. *)
Lemma bestStep_fold (rest before : list string) (best : string) (tied : list string) :
  (∀ t, t ∈ before → storedAverage memory t < storedAverage memory best) →
  (∀ t, t ∈ tied → storedAverage memory t <= storedAverage memory best) →
  ∃ before' s after,
    ((before ++ best :: tied) ++ rest)%list = (before' ++ s :: after)%list ∧
    fold_left (bestStep memory) rest (best, Some (storedAverage memory best))
      = (s, Some (storedAverage memory s)) ∧
    (∀ t, t ∈ before' → storedAverage memory t < storedAverage memory s) ∧
    (∀ t, t ∈ after → storedAverage memory t <= storedAverage memory s).
Proof.
  revert before best tied.
  induction rest as [| x rest IH]; intros before best tied Hlt Hle.
  - exists before, best, tied. rewrite app_nil_r. auto.
  - cbn [fold_left]. unfold bestStep at 2. cbn [snd].
    destruct (Qltb (storedAverage memory best) (storedAverage memory x)) eqn:E.
    + apply Qltb_lt in E.
      destruct (IH (before ++ best :: tied)%list x []) as (b' & s & a & Heq & Hf & H1 & H2).
      * intros t. rewrite elem_of_app, elem_of_cons.
        intros [Ht | [-> | Ht]]; [specialize (Hlt t Ht) | | specialize (Hle t Ht)]; lra.
      * intros t Ht. apply elem_of_nil in Ht. destruct Ht.
      * exists b', s, a. split; [| auto].
        rewrite <- Heq, <- !app_assoc. cbn [app]. rewrite <- ?app_assoc. reflexivity.
    + apply Qltb_ge in E.
      destruct (IH before best (tied ++ [x])%list) as (b' & s & a & Heq & Hf & H1 & H2).
      * exact Hlt.
      * intros t. rewrite elem_of_app, list_elem_of_singleton.
        intros [Ht | ->]; [apply Hle, Ht | exact E].
      * exists b', s, a. split; [| auto].
        rewrite <- Heq, <- !app_assoc. cbn [app]. rewrite <- ?app_assoc. reflexivity.
Qed.

(** The greedy rule: the best stored average, the first listed among
    equals. *)
Lemma bestByAverage_first_max (c : string) (catalog : list string) :
  ∃ before after,
    c :: catalog = (before ++ bestByAverage memory (c :: catalog) :: after)%list ∧
    (∀ t, t ∈ before →
          storedAverage memory t < storedAverage memory (bestByAverage memory (c :: catalog))) ∧
    (∀ t, t ∈ after →
          storedAverage memory t <= storedAverage memory (bestByAverage memory (c :: catalog))).
Proof.
  assert (bestByAverage memory (c :: catalog)
          = fst (fold_left (bestStep memory) catalog (c, Some (storedAverage memory c))))
    as -> by reflexivity.
  destruct (bestStep_fold catalog [] c []) as (b & s & a & Heq & Hf & H1 & H2).
  - intros t Ht. apply elem_of_nil in Ht. destruct Ht.
  - intros t Ht. apply elem_of_nil in Ht. destruct Ht.
  - rewrite Hf. cbn [fst]. exists b, a. split; [exact Heq | auto].
Qed.

End BestByAverage.

Lemma bestByAverage_in_catalog (memory : Memory) :
  bestByAverage memory STRATEGIES ∈ STRATEGIES.
Proof.
  destruct (bestByAverage_first_max memory "consultative" ["social_proof"; "urgent_offer"])
    as (b & a & Heq & _).
  change ("consultative" :: ["social_proof"; "urgent_offer"]) with STRATEGIES in Heq.
  rewrite Heq at 2. set_solver.
Qed.

Lemma pickBestStrategy_in_catalog (memory : Memory) (objectionType : string) :
  pickBestStrategy memory objectionType ∈ STRATEGIES.
Proof.
  unfold pickBestStrategy.
  destruct (objectionPolicy memory !! objectionType) as [mapped |];
    [| apply bestByAverage_in_catalog].
  destruct (negb (isEmpty mapped) && arrayIncludes mapped STRATEGIES) eqn:E;
    [| apply bestByAverage_in_catalog].
  apply andb_true_iff in E as [_ E]. apply arrayIncludes_elem_of, E.
Qed.



(** * Memory update *)

Section BestForLead.
Local Open Scope Q_scope.



End BestForLead.

Section UpdateMemory.
Variables (memory : Memory) (lead : Lead) (strategy : string)
  (result : EvaluationResult) (epoch : Z) (response : string)
  (candidateScores : list (string * EvaluationResult)) (now : string).

(** The update raises exactly when the used strategy has no statistics;
    otherwise it returns the memory described field by field. *)
Lemma updateMemory_fields (stats : StrategyStats) :
  strategyStats memory !! strategy = Some stats →
  ∃ memory' stats',
    updateMemory memory lead strategy result epoch response candidateScores now
      = Some memory' ∧
    uses stats' = (uses stats + 1)%Z ∧
    totalScore stats' = toFixed 4 (totalScore stats + score result) ∧
    avgScore stats' = toFixed 4 (getAverage stats') ∧
    runs memory' = runs memory ∧
    policy memory' = policy memory ∧
    strategyStats memory' = <[strategy := stats']> (strategyStats memory) ∧
    objectionPolicy memory' =
      <[objectionType lead := bestForLead strategy result candidateScores]>
        (objectionPolicy memory) ∧
    history memory' =
      pushCapped (history memory)
        {| h_timestamp := now; h_epoch := epoch; h_leadId := id lead;
           h_objectionType := objectionType lead; h_strategy := strategy;
           h_score := score result;
           h_conversionProbability := conversionProbability result;
           h_responsePreview := sliceTo 180 response |}.
Proof.
  intros Hstats. unfold updateMemory. rewrite Hstats. cbn [mbind option_bind].
  eexists. eexists. split; [reflexivity |].
  cbn. repeat split; reflexivity.
Qed.

Lemma updateMemory_needs_stats (memory' : Memory) :
  updateMemory memory lead strategy result epoch response candidateScores now
    = Some memory' →
  is_Some (strategyStats memory !! strategy).
Proof.
  unfold updateMemory. destruct (strategyStats memory !! strategy); [eauto | discriminate].
Qed.

End UpdateMemory.

Section Averages.
Local Open Scope Q_scope.










End Averages.





(** * History *)

Section History.
Context {A : Type}.

Lemma drop_excess_length (l : list A) (cap : nat) :
  (length (drop (length l - cap) l) ≤ cap)%nat.
Proof. rewrite length_drop. lia. Qed.

End History.

Lemma pushCapped_length (history : list HistoryEvent) (e : HistoryEvent) :
  (length (pushCapped history e) ≤ 200)%nat.
Proof.
  unfold pushCapped. destruct (200 <? length (history ++ [e]))%nat eqn:E.
  - apply drop_excess_length.
  - apply Nat.ltb_ge in E. exact E.
Qed.

(** The cap removes a prefix, and only as many entries as exceed it. *)
Lemma pushCapped_split (history : list HistoryEvent) (e : HistoryEvent) :
  ∃ dropped,
    (history ++ [e])%list = (dropped ++ pushCapped history e)%list ∧
    length dropped = (length history + 1 - 200)%nat.
Proof.
  unfold pushCapped. destruct (200 <? length (history ++ [e]))%nat eqn:E.
  - exists (take (length (history ++ [e]) - 200) (history ++ [e])).
    split; [symmetry; apply take_drop |].
    rewrite length_take, length_app. cbn [length]. lia.
  - apply Nat.ltb_ge in E. rewrite length_app in E. cbn [length] in E.
    exists []. split; [reflexivity |]. cbn [length]. lia.
Qed.

Lemma pushCapped_last (history : list HistoryEvent) (e : HistoryEvent) :
  last (pushCapped history e) = Some e.
Proof.
  destruct (pushCapped_split history e) as (dropped & Heq & Hlen).
  assert (pushCapped history e ≠ []) as Hne.
  { intros Hnil. rewrite Hnil, app_nil_r in Heq. subst dropped.
    rewrite length_app in Hlen. cbn [length] in Hlen. lia. }
  assert (last (history ++ [e])%list = Some e) as Hl by apply last_snoc.
  rewrite Heq in Hl.
  rewrite last_app in Hl. destruct (last (pushCapped history e)) eqn:El.
  - exact Hl.
  - apply last_None in El. contradiction.
Qed.

(** C6. After an update the history holds at most 200 entries; what the
    update removes is a prefix of the log (the oldest entries), exactly as
    many as exceed 200, and the event just recorded is the last entry.  So
    the history stays the most recent part, in arrival order, of everything
    ever recorded. *)
Theorem update_caps_history (memory : Memory) (lead : Lead)
    (strategy : string) (result : EvaluationResult) (epoch : Z) (response : string)
    (candidateScores : list (string * EvaluationResult)) (now : string)
    (stats : StrategyStats) :
  strategyStats memory !! strategy = Some stats →
  ∃ memory' event dropped,
    updateMemory memory lead strategy result epoch response candidateScores now
      = Some memory' ∧
    h_leadId event = id lead ∧ h_strategy event = strategy ∧
    h_epoch event = epoch ∧ h_score event = score result ∧
    (length (history memory') ≤ 200)%nat ∧
    (history memory ++ [event])%list = (dropped ++ history memory')%list ∧
    length dropped = (length (history memory) + 1 - 200)%nat ∧
    last (history memory') = Some event ∧
    (∀ arrivals, history memory `suffix_of` arrivals →
                 history memory' `suffix_of` (arrivals ++ [event])%list).
Proof.
  intros Hstats.
  destruct (updateMemory_fields memory lead strategy result epoch response
              candidateScores now stats Hstats)
    as (memory' & stats' & Hupd & _ & _ & _ & _ & _ & _ & _ & Hhist).
  set (event := mkHistory now epoch (id lead) (objectionType lead) strategy
                  (score result) (conversionProbability result)
                  (sliceTo 180 response)) in *.
  destruct (pushCapped_split (history memory) event) as (dropped & Heq & Hlen).
  exists memory', event, dropped.
  split; [exact Hupd |]. repeat (split; [reflexivity |]).
  rewrite Hhist.
  split; [apply pushCapped_length |]. split; [exact Heq |]. split; [exact Hlen |].
  split; [apply pushCapped_last |].
  intros arrivals [older Harr]. exists (older ++ dropped)%list.
  rewrite Harr, <- !app_assoc, Heq. reflexivity.
Qed.

Lemma update_caps_history_witness :
  ∃ memory' event dropped,
    updateMemory fullMemory sampleLead "consultative" (sampleResult 8.1 0.64) 2
      "reply" sampleCandidates "2026-01-01T00:00:00.000Z" = Some memory' ∧
    (length (history memory') ≤ 200)%nat ∧
    (history fullMemory ++ [event])%list = (dropped ++ history memory')%list ∧
    length dropped = 1%nat ∧
    last (history memory') = Some event.
Proof.
  destruct (update_caps_history fullMemory sampleLead "consultative"
              (sampleResult 8.1 0.64) 2 "reply" sampleCandidates
              "2026-01-01T00:00:00.000Z" (mkStats 0 0 0))
    as (memory' & event & dropped & Hupd & _ & _ & _ & _ & Hlen & Heq & Hdrop & Hlast & _).
  - reflexivity.
  - exists memory', event, dropped. split; [exact Hupd |]. split; [exact Hlen |].
    split; [exact Heq |]. split; [rewrite Hdrop; reflexivity | exact Hlast].
Defined.

(** When the log is full the update drops its oldest entries and appends
    the new one. *)
Lemma pushCapped_full (history : list HistoryEvent) (e : HistoryEvent) :
  (200 ≤ length history)%nat →
  pushCapped history e = (drop (length history - 199) history ++ [e])%list.
Proof.
  intros Hfull. unfold pushCapped. rewrite length_app. cbn [length].
  assert ((200 <? length history + 1)%nat = true) as -> by (apply Nat.ltb_lt; lia).
  rewrite drop_app_le by lia. f_equal. f_equal. lia.
Qed.

(** * The round loop *)

Lemma pickWarmupStrategy_in_catalog (index : nat) :
  ∃ s, pickWarmupStrategy index = Some s ∧ s ∈ STRATEGIES.
Proof.
  unfold pickWarmupStrategy.
  destruct (lookup_lt_is_Some_2 STRATEGIES (index mod length STRATEGIES)) as [s Hs].
  - apply Nat.mod_upper_bound. discriminate.
  - exists s. split; [exact Hs |]. apply list_elem_of_lookup. eauto.
Qed.

Lemma selectStrategy_warmup (epoch warmupEpochs : Z) (index : nat) (memory : Memory)
    (objectionType : string) :
  (epoch ≤ warmupEpochs)%Z →
  selectStrategy epoch warmupEpochs index memory objectionType
    = STRATEGIES !! (index mod length STRATEGIES)%nat.
Proof.
  intros Hwarm. unfold selectStrategy.
  apply Z.leb_le in Hwarm. rewrite Hwarm. reflexivity.
Qed.

Lemma selectStrategy_in_catalog (epoch warmupEpochs : Z) (index : nat) (memory : Memory)
    (objectionType : string) :
  ∃ s, selectStrategy epoch warmupEpochs index memory objectionType = Some s ∧
       s ∈ STRATEGIES.
Proof.
  unfold selectStrategy. destruct (epoch <=? warmupEpochs)%Z.
  - apply pickWarmupStrategy_in_catalog.
  - eexists. split; [reflexivity | apply pickBestStrategy_in_catalog].
Qed.

Section RoundLoop.
Variable evaluate : Lead → string → string → EvaluationResult.
Variable startCall : option string → option CallResult.
Variable clock : Z → nat → string.
Variables warmupEpochs minEpochForVoice : Z.
Variable voiceChannelEnabled : bool.

Local Abbreviation leadStep :=
  (processLead evaluate startCall clock warmupEpochs minEpochForVoice voiceChannelEnabled).
Local Abbreviation leadLoop :=
  (processLeads evaluate startCall clock warmupEpochs minEpochForVoice voiceChannelEnabled).
Local Abbreviation roundStep :=
  (runEpoch evaluate startCall clock warmupEpochs minEpochForVoice voiceChannelEnabled).

(** What a completed turn of the lead loop did. *)
Lemma processLead_inv (epoch : Z) (memory : Memory) (events : list RoundEvent)
    (lead : Lead) (memory' : Memory) (events' : list RoundEvent) :
  leadStep epoch memory events lead = Some (memory', events') →
  ∃ strategy candidateScores response result event,
    selectStrategy epoch warmupEpochs (length events) memory (objectionType lead)
      = Some strategy ∧
    tableGet strategy candidateScores = Some result ∧
    updateMemory memory lead strategy result epoch response candidateScores
      (clock epoch (length events)) = Some memory' ∧
    events' = (events ++ [event])%list ∧
    e_strategy event = strategy ∧ e_leadId event = id lead ∧
    e_score event = score result ∧
    (shouldEscalateToVoice lead result epoch minEpochForVoice = false →
     attempted (e_voice event) = false).
Proof.
  unfold processLead. intros H.
  destruct (selectStrategy _ _ _ _ _) as [strategy |]; [| discriminate].
  cbn [mbind option_bind] in H.
  destruct (evaluateCandidates evaluate lead) as [cands |]; [| discriminate].
  cbn [mbind option_bind] in H.
  destruct (buildResponse strategy lead) as [response |]; [| discriminate].
  cbn [mbind option_bind] in H.
  destruct (tableGet strategy cands) as [result |] eqn:Hres; [| discriminate].
  cbn [mbind option_bind] in H.
  destruct (updateMemory _ _ _ _ _ _ _ _) as [m1 |] eqn:Hupd; [| discriminate].
  cbn [mbind option_bind] in H.
  destruct (shouldEscalateToVoice lead result epoch minEpochForVoice) eqn:Hesc.
  - destruct (maybeStartVoiceFollowup startCall voiceChannelEnabled lead) as [voice |];
      [| discriminate].
    cbn [mbind option_bind] in H. injection H as <- <-.
    eexists strategy, cands, response, result, _.
    repeat (split; [reflexivity || eassumption |]). congruence.
  - cbn [mbind option_bind] in H. injection H as <- <-.
    eexists strategy, cands, response, result, _.
    repeat (split; [reflexivity || eassumption |]). reflexivity.
Qed.

Lemma processLead_policy (epoch : Z) (memory : Memory) (events : list RoundEvent)
    (lead : Lead) (memory' : Memory) (events' : list RoundEvent) :
  leadStep epoch memory events lead = Some (memory', events') →
  policy memory' = policy memory.
Proof.
  intros H. apply processLead_inv in H
    as (strategy & cands & response & result & event & _ & _ & Hupd & _).
  destruct (updateMemory_needs_stats _ _ _ _ _ _ _ _ _ Hupd) as [stats Hstats].
  destruct (updateMemory_fields memory lead strategy result epoch response cands
              (clock epoch (length events)) stats Hstats)
    as (m & _ & Hm & _ & _ & _ & _ & Hpol & _).
  rewrite Hupd in Hm. injection Hm as <-. exact Hpol.
Qed.

(** The lead loop never touches the exploration policy. *)
Lemma processLeads_policy (epoch : Z) (leads : list Lead) :
  ∀ memory events memory' events',
    leadLoop epoch memory events leads = Some (memory', events') →
    policy memory' = policy memory.
Proof.
  induction leads as [| lead rest IH]; intros memory events memory' events' H.
  - injection H as <- _. reflexivity.
  - cbn [processLeads] in H.
    destruct (leadStep epoch memory events lead) as [[m1 ev1] |] eqn:E;
      [| discriminate].
    cbn [mbind option_bind] in H.
    rewrite (IH _ _ _ _ H). apply (processLead_policy _ _ _ _ _ _ E).
Qed.

(** The events a lead loop adds: one per lead, in lead order, each with
    the strategy selected at the lead's position. *)
Lemma processLeads_events (epoch : Z) (leads : list Lead) :
  ∀ memory events memory' events',
    leadLoop epoch memory events leads = Some (memory', events') →
    ∃ added,
      events' = (events ++ added)%list ∧ length added = length leads ∧
      ∀ i lead, leads !! i = Some lead →
        ∃ event m, added !! i = Some event ∧ e_leadId event = id lead ∧
          selectStrategy epoch warmupEpochs (length events + i) m (objectionType lead)
            = Some (e_strategy event) ∧
          ((∀ result, shouldEscalateToVoice lead result epoch minEpochForVoice = false) →
           attempted (e_voice event) = false).
Proof.
  induction leads as [| lead rest IH]; intros memory events memory' events' H.
  - injection H as _ <-. exists []. rewrite app_nil_r.
    split; [reflexivity |]. split; [reflexivity |].
    intros i l Hi. rewrite lookup_nil in Hi. discriminate.
  - cbn [processLeads] in H.
    destruct (leadStep epoch memory events lead) as [[m1 ev1] |] eqn:E;
      [| discriminate].
    cbn [mbind option_bind] in H.
    apply processLead_inv in E
      as (strategy & cands & response & result & event & Hsel & _ & _ & -> & Hs & Hid
          & _ & Hvoice).
    destruct (IH _ _ _ _ H) as (added & -> & Hlen & Hall).
    exists (event :: added). rewrite <- app_assoc. split; [reflexivity |].
    split; [cbn [length]; lia |].
    intros [| i] l Hi.
    + injection Hi as <-. exists event, memory. rewrite Nat.add_0_r, Hs.
      split; [reflexivity |]. split; [exact Hid |]. split; [exact Hsel |].
      intros Hnever. apply Hvoice, Hnever.
    + cbn in Hi. destruct (Hall i l Hi) as (ev & m & Hev & Hevid & Hevsel & Hevvoice).
      exists ev, m. split; [exact Hev |]. split; [exact Hevid |].
      split; [| exact Hevvoice].
      rewrite length_app in Hevsel. cbn [length] in Hevsel.
      replace (length events + S i)%nat with (length events + 1 + i)%nat by lia.
      exact Hevsel.
Qed.

Lemma runEpoch_inv (epoch : Z) (memory : Memory) (leads : list Lead)
    (memory' : Memory) (round : Round) :
  roundStep epoch memory leads = Some (memory', round) →
  ∃ memory1,
    leadLoop epoch memory [] leads = Some (memory1, r_events round) ∧
    r_epoch round = epoch ∧
    policy memory' = policy (decayExploration memory1) ∧
    runs memory' = (runs memory1 + 1)%Z ∧
    strategyStats memory' = strategyStats memory1 ∧
    objectionPolicy memory' = objectionPolicy memory1 ∧
    history memory' = history memory1.
Proof.
  unfold runEpoch. intros H.
  destruct (leadLoop epoch memory [] leads) as [[m1 events] |]; [| discriminate].
  cbn [mbind option_bind] in H. injection H as <- <-.
  exists m1. repeat split; reflexivity.
Qed.

(** A round decays the exploration rate once, whatever the number of
    leads. *)
Lemma runEpoch_policy (epoch : Z) (memory : Memory) (leads : list Lead)
    (memory' : Memory) (round : Round) :
  roundStep epoch memory leads = Some (memory', round) →
  policy memory' = policy (decayExploration memory).
Proof.
  intros H. apply runEpoch_inv in H as (m1 & Hloop & _ & Hpol & _).
  rewrite Hpol. unfold decayExploration. cbn [policy].
  rewrite (processLeads_policy _ _ _ _ _ _ Hloop). reflexivity.
Qed.

(** The strategies of a warm-up round are the catalog taken in turn. *)
Lemma runEpoch_warmup_assigned (epoch : Z) (memory : Memory) (leads : list Lead)
    (memory' : Memory) (round : Round) :
  (epoch ≤ warmupEpochs)%Z →
  roundStep epoch memory leads = Some (memory', round) →
  length (r_events round) = length leads ∧
  ∀ i, (i < length leads)%nat →
       assigned (r_events round) !! i = STRATEGIES !! (i mod length STRATEGIES)%nat.
Proof.
  intros Hwarm H. apply runEpoch_inv in H as (m1 & Hloop & _).
  apply processLeads_events in Hloop as (added & Heq & Hlen & Hall).
  cbn [app] in Heq. subst added. split; [exact Hlen |].
  intros i Hi. destruct (lookup_lt_is_Some_2 leads i Hi) as [lead Hlead].
  destruct (Hall i lead Hlead) as (event & m & Hev & _ & Hsel & _).
  unfold assigned. rewrite list_lookup_fmap, Hev. cbn [fmap option_fmap option_map].
  rewrite <- Hsel. cbn [length Nat.add]. apply selectStrategy_warmup, Hwarm.
Qed.

End RoundLoop.

Section RoundReturns.
Variable evaluate : Lead → string → string → EvaluationResult.
Variable startCall : option string → option CallResult.
Variable clock : Z → nat → string.
Variables warmupEpochs minEpochForVoice : Z.
Variable voiceChannelEnabled : bool.

Local Abbreviation leadStep :=
  (processLead evaluate startCall clock warmupEpochs minEpochForVoice voiceChannelEnabled).
Local Abbreviation leadLoop :=
  (processLeads evaluate startCall clock warmupEpochs minEpochForVoice voiceChannelEnabled).
Local Abbreviation roundStep :=
  (runEpoch evaluate startCall clock warmupEpochs minEpochForVoice voiceChannelEnabled).

(** The dispatcher answers (its request to the provider is not rejected). *)
Hypothesis startCall_answers : ∀ p, is_Some (startCall p).

(** Every strategy of the catalog has a template and a candidate entry. *)
Lemma catalog_candidates (lead : Lead) (strategy : string) :
  strategy ∈ STRATEGIES →
  ∃ candidateScores response result,
    evaluateCandidates evaluate lead = Some candidateScores ∧
    buildResponse strategy lead = Some response ∧
    tableGet strategy candidateScores = Some result.
Proof.
  unfold STRATEGIES. rewrite !elem_of_cons, elem_of_nil.
  intros [-> | [-> | [-> | []]]]; eexists _, _, _;
    (split; [reflexivity |]); split; reflexivity.
Qed.

Lemma updateMemory_keeps_stats memory lead strategy result epoch response
    candidateScores now memory' :
  updateMemory memory lead strategy result epoch response candidateScores now
    = Some memory' →
  hasCatalogStats memory → hasCatalogStats memory'.
Proof.
  intros Hupd Hwf s Hs.
  destruct (updateMemory_needs_stats _ _ _ _ _ _ _ _ _ Hupd) as [stats Hstats].
  destruct (updateMemory_fields memory lead strategy result epoch response
              candidateScores now stats Hstats)
    as (m & stats' & Hm & _ & _ & _ & _ & _ & Hmap & _).
  rewrite Hupd in Hm. injection Hm as <-. rewrite Hmap.
  destruct (decide (strategy = s)) as [-> | Hne].
  - rewrite lookup_insert_eq. eauto.
  - rewrite lookup_insert_ne by exact Hne. apply Hwf, Hs.
Qed.

Lemma processLead_returns (epoch : Z) (memory : Memory) (events : list RoundEvent)
    (lead : Lead) :
  hasCatalogStats memory →
  ∃ memory' events',
    leadStep epoch memory events lead = Some (memory', events') ∧
    hasCatalogStats memory'.
Proof.
  intros Hwf.
  destruct (selectStrategy_in_catalog epoch warmupEpochs (length events) memory
              (objectionType lead)) as (strategy & Hsel & Hin).
  destruct (catalog_candidates lead strategy Hin)
    as (cands & response & result & Hc & Hb & Ht).
  destruct (Hwf strategy Hin) as [stats Hstats].
  destruct (updateMemory_fields memory lead strategy result epoch response cands
              (clock epoch (length events)) stats Hstats)
    as (m1 & _ & Hupd & _).
  unfold processLead. rewrite Hsel. cbn [mbind option_bind].
  rewrite Hc. cbn [mbind option_bind]. rewrite Hb. cbn [mbind option_bind].
  rewrite Ht. cbn [mbind option_bind]. rewrite Hupd. cbn [mbind option_bind].
  assert (∃ voice,
            (if shouldEscalateToVoice lead result epoch minEpochForVoice
             then maybeStartVoiceFollowup startCall voiceChannelEnabled lead
             else Some (NotAttempted "NO_ESCALATION")) = Some voice) as [voice ->].
  { destruct (shouldEscalateToVoice _ _ _ _); [| eauto].
    unfold maybeStartVoiceFollowup. destruct (negb voiceChannelEnabled); [eauto |].
    destruct (startCall_answers (phoneNumber lead)) as [call ->]. eauto. }
  cbn [mbind option_bind]. eexists _, _. split; [reflexivity |].
  apply (updateMemory_keeps_stats _ _ _ _ _ _ _ _ _ Hupd Hwf).
Qed.

Lemma processLeads_returns (epoch : Z) (leads : list Lead) :
  ∀ memory events,
    hasCatalogStats memory →
    ∃ memory' events',
      leadLoop epoch memory events leads = Some (memory', events') ∧
      hasCatalogStats memory'.
Proof.
  induction leads as [| lead rest IH]; intros memory events Hwf.
  - exists memory, events. split; [reflexivity | exact Hwf].
  - destruct (processLead_returns epoch memory events lead Hwf)
      as (m1 & ev1 & Hstep & Hwf1).
    destruct (IH m1 ev1 Hwf1) as (m2 & ev2 & Hloop & Hwf2).
    exists m2, ev2. cbn [processLeads]. rewrite Hstep. cbn [mbind option_bind].
    split; [exact Hloop | exact Hwf2].
Qed.

(** A round over a memory that has the catalog's statistics runs to its
    end and leaves such a memory. *)
Lemma runEpoch_returns (epoch : Z) (memory : Memory) (leads : list Lead) :
  hasCatalogStats memory →
  ∃ memory' round,
    roundStep epoch memory leads = Some (memory', round) ∧ hasCatalogStats memory'.
Proof.
  intros Hwf.
  destruct (processLeads_returns epoch leads memory [] Hwf) as (m1 & ev & Hloop & Hwf1).
  unfold runEpoch. rewrite Hloop. cbn [mbind option_bind].
  eexists _, _. split; [reflexivity |]. exact Hwf1.
Qed.

End RoundReturns.

Lemma INITIAL_MEMORY_stats : hasCatalogStats INITIAL_MEMORY.
Proof.
  intros s. unfold STRATEGIES. rewrite !elem_of_cons, elem_of_nil.
  intros [-> | [-> | [-> | []]]]; vm_compute; eauto.
Qed.

(** C7. In a round whose index is at most the warm-up count, the lead at
    position [k] gets the strategy [STRATEGIES[k mod 3]], whatever the
    memory holds; the events of such a round carry the catalog taken in
    turn, so two runs over the same leads assign the same strategies,
    whatever their memories and collaborators; and from the reset memory
    such a round runs to its end. *)
Theorem warmup_round_robin (epoch warmupEpochs : Z) :
  (epoch ≤ warmupEpochs)%Z →
  (∀ k memory objectionType,
     ∃ s, selectStrategy epoch warmupEpochs k memory objectionType = Some s ∧
          STRATEGIES !! (k mod length STRATEGIES)%nat = Some s) ∧
  (∀ evaluate startCall clock minEpochForVoice voiceChannelEnabled memory leads
     memory' round,
     runEpoch evaluate startCall clock warmupEpochs minEpochForVoice
       voiceChannelEnabled epoch memory leads = Some (memory', round) →
     length (r_events round) = length leads ∧
     ∀ k, (k < length leads)%nat →
          assigned (r_events round) !! k = STRATEGIES !! (k mod length STRATEGIES)%nat) ∧
  (∀ evaluate1 startCall1 clock1 minEpoch1 voice1 memory1 memory1' round1
     evaluate2 startCall2 clock2 minEpoch2 voice2 memory2 memory2' round2 leads,
     runEpoch evaluate1 startCall1 clock1 warmupEpochs minEpoch1 voice1 epoch
       memory1 leads = Some (memory1', round1) →
     runEpoch evaluate2 startCall2 clock2 warmupEpochs minEpoch2 voice2 epoch
       memory2 leads = Some (memory2', round2) →
     assigned (r_events round1) = assigned (r_events round2)) ∧
  (∀ evaluate startCall clock minEpochForVoice voiceChannelEnabled leads,
     (∀ p, is_Some (startCall p)) →
     is_Some (runEpoch evaluate startCall clock warmupEpochs minEpochForVoice
                voiceChannelEnabled epoch INITIAL_MEMORY leads)).
Proof.
  intros Hwarm. split; [| split; [| split]].
  - intros k memory objectionType.
    rewrite (selectStrategy_warmup _ _ _ _ _ Hwarm).
    destruct (pickWarmupStrategy_in_catalog k) as (s & Hs & _).
    exists s. split; exact Hs.
  - intros evaluate startCall clock minEpochForVoice voiceChannelEnabled memory leads
      memory' round Hrun.
    apply (runEpoch_warmup_assigned _ _ _ _ _ _ _ _ _ _ _ Hwarm Hrun).
  - intros evaluate1 startCall1 clock1 minEpoch1 voice1 memory1 memory1' round1
      evaluate2 startCall2 clock2 minEpoch2 voice2 memory2 memory2' round2 leads
      Hrun1 Hrun2.
    destruct (runEpoch_warmup_assigned _ _ _ _ _ _ _ _ _ _ _ Hwarm Hrun1) as [Hlen1 Hall1].
    destruct (runEpoch_warmup_assigned _ _ _ _ _ _ _ _ _ _ _ Hwarm Hrun2) as [Hlen2 Hall2].
    apply list_eq. intros k.
    destruct (decide (k < length leads)%nat) as [Hk | Hk].
    + rewrite (Hall1 k Hk), (Hall2 k Hk). reflexivity.
    + unfold assigned.
      rewrite !lookup_ge_None_2; [reflexivity | |]; rewrite length_fmap; lia.
  - intros evaluate startCall clock minEpochForVoice voiceChannelEnabled leads Hcall.
    destruct (runEpoch_returns evaluate startCall clock warmupEpochs minEpochForVoice
                voiceChannelEnabled Hcall epoch INITIAL_MEMORY leads INITIAL_MEMORY_stats)
      as (m & r & Hrun & _).
    rewrite Hrun. eauto.
Qed.

Lemma warmup_round_robin_witness :
  selectStrategy 1 1 4 INITIAL_MEMORY "price" = Some "social_proof".
Proof.
  destruct (warmup_round_robin 1 1) as [Hsel _]; [lia |].
  destruct (Hsel 4%nat INITIAL_MEMORY "price") as (s & Hs & Hcat).
  rewrite Hs. rewrite <- Hcat. reflexivity.
Defined.

(** * Exploration decay *)

Section Decay.
Local Open Scope Q_scope.




End Decay.




(** * Escalation *)



Lemma trimEnd_visible (s : string) : isEmpty (trimEnd s) = false ↔ hasVisibleChar s.
Proof.
  induction s as [| c s IH]; cbn.
  - split; [discriminate | tauto].
  - destruct (isSpace c); cbn [andb].
    + destruct (isEmpty (trimEnd s)) eqn:E; cbn [isEmpty].
      * split; [discriminate |]. intros [H | H]; [discriminate |].
        apply IH in H. discriminate.
      * split; [intros _; right; apply IH; reflexivity | reflexivity].
    + cbn [isEmpty]. split; [intros _; left; reflexivity | reflexivity].
Qed.

Lemma trimStart_visible (s : string) : hasVisibleChar (trimStart s) ↔ hasVisibleChar s.
Proof.
  induction s as [| c s IH]; cbn; [tauto |].
  destruct (isSpace c) eqn:E.
  - rewrite IH. split; [tauto |]. intros [H | H]; [discriminate | exact H].
  - cbn. rewrite E. tauto.
Qed.


Lemma isEmpty_false (s : string) : isEmpty s = false ↔ s ≠ "".
Proof. destruct s; cbn; split; (congruence || discriminate). Qed.

(** What trimming leaves is empty exactly when the string has nothing but
    white space. *)
Lemma trim_nonempty_visible (s : string) : trim s ≠ "" ↔ hasVisibleChar s.
Proof.
  rewrite <- isEmpty_false. unfold trim.
  rewrite trimEnd_visible. apply trimStart_visible.
Qed.





(** The scenario of the specification: a skeptical lead with conversion
    probability 0.40 and a phone number escalates in round 2 when the
    threshold is 2, the same lead with an empty phone number does not, and
    nobody escalates in round 1. *)
Example escalation_scenario :
  shouldEscalateToVoice sampleLead (sampleResult 6.2 0.40) 2 2 = true ∧
  shouldEscalateToVoice (withPhone sampleLead (Some "")) (sampleResult 6.2 0.40) 2 2 = false ∧
  shouldEscalateToVoice (withPhone sampleLead (Some "   ")) (sampleResult 6.2 0.40) 2 2 = false ∧
  shouldEscalateToVoice (withPhone sampleLead None) (sampleResult 6.2 0.40) 2 2 = false ∧
  shouldEscalateToVoice sampleLead (sampleResult 6.2 0.40) 1 2 = false.
Proof. repeat split; reflexivity. Qed.




(** * Phone numbers and the dispatcher *)


Lemma isEmpty_true (s : string) : isEmpty s = true → s = "".
Proof. destruct s; [reflexivity | discriminate]. Qed.















(** * Evaluation *)

Section Evaluation.
Local Open Scope Q_scope.

Lemma clamp_bounds (lo hi x : Q) : lo <= hi → lo <= Qmax lo (Qmin hi x) <= hi.
Proof.
  intros H. split; [apply Q.le_max_l |].
  apply Q.max_lub; [exact H | apply Q.le_min_l].
Qed.

(** Clamping and then rounding to two decimals stays within bounds that
    are themselves written with two decimals. *)
Lemma clamp_toFixed_bounds (lo hi x : Q) :
  onGrid 2 lo → onGrid 2 hi → lo <= hi →
  lo <= toFixed 2 (Qmax lo (Qmin hi x)) <= hi.
Proof.
  intros Hlo Hhi H. apply toFixed_between; [exact Hlo | exact Hhi |].
  apply clamp_bounds, H.
Qed.

Lemma grid_1 : onGrid 2 1.
Proof. exists 100%Z. reflexivity. Qed.
Lemma grid_10 : onGrid 2 10.
Proof. exists 1000%Z. reflexivity. Qed.
Lemma grid_005 : onGrid 2 0.05.
Proof. exists 5%Z. reflexivity. Qed.
Lemma grid_095 : onGrid 2 0.95.
Proof. exists 95%Z. reflexivity. Qed.


Lemma normalizeScoring_bounds (raw : RawScoring) (n : Scoring) :
  normalizeScoring raw = Some n →
  1 <= nScore n <= 10 ∧ 0.05 <= nProbability n <= 0.95.
Proof.
  unfold normalizeScoring.
  destruct (rawScore raw) as [s | | |]; try discriminate.
  destruct (rawProbability raw) as [p | | |]; try discriminate.
  intros H. injection H as <-. cbn [nScore nProbability]. split.
  - apply clamp_toFixed_bounds; [apply grid_1 | apply grid_10 | discriminate].
  - apply clamp_toFixed_bounds; [apply grid_005 | apply grid_095 | discriminate].
Qed.



Lemma evaluateByLlm_bounds (reply : LlmReply) (value : EvaluationResult) :
  evaluateByLlm reply = LlmOk value →
  source value = "llm" ∧
  1 <= score value <= 10 ∧ 0.05 <= conversionProbability value <= 0.95.
Proof.
  destruct reply as [e | st t | t | content]; cbn [evaluateByLlm]; try discriminate.
  destruct (normalizeScoring (contentScoring content)) as [n |] eqn:E; [| discriminate].
  intros H. injection H as <-. cbn [source score conversionProbability].
  split; [reflexivity | apply (normalizeScoring_bounds _ _ E)].
Qed.

End Evaluation.



(** The time-out scenario of the specification: the request is aborted,
    and the result is the rule score for the same input, marked as a
    fallback, with the error as its notes. *)
Example evaluator_timeout_scenario :
  evaluateLeadAdaptive llmConfig (FetchRejected "AbortError: This operation was aborted")
    sampleLead "consultative" "reply"
  = {| score := score (evaluateByRules sampleLead "consultative" "reply");
       conversionProbability :=
         conversionProbability (evaluateByRules sampleLead "consultative" "reply");
       source := "rule_fallback";
       notes := Some "LLM request failed: AbortError: This operation was aborted" |}.
Proof. reflexivity. Qed.

(** * The end-to-end scenario *)

(** Round 1 takes the catalog in turn and attempts no call; after it the
    exploration rate is 0.315; round 2 gives every lead the strategy that
    round 1 wrote into the objection policy for its category (the
    consultative one scores best for all three), and escalates the first
    lead only (the second shows no friction, the third has neither a text
    channel nor a phone number). *)
Example end_to_end_scenario :
  (assigned ∘ r_events ∘ snd) <$> scenarioRound1 = Some STRATEGIES ∧
  (epsilon ∘ policy ∘ fst) <$> scenarioRound1 = Some (Some 0.3150%Q) ∧
  (λ r, attempted ∘ e_voice <$> r_events (snd r)) <$> scenarioRound1
    = Some [false; false; false] ∧
  (λ r, (λ l, objectionPolicy (fst r) !! objectionType l) <$> scenarioLeads)
    <$> scenarioRound1
    = Some [Some "consultative"; Some "consultative"; Some "consultative"] ∧
  (assigned ∘ r_events ∘ snd) <$> scenarioRound2
    = Some ["consultative"; "consultative"; "consultative"] ∧
  (λ r, attempted ∘ e_voice <$> r_events (snd r)) <$> scenarioRound2
    = Some [true; false; false] ∧
  (length ∘ history ∘ fst) <$> scenarioRound2 = Some 6%nat.
Proof. repeat split; vm_compute; reflexivity. Qed.

(** * Further properties of the selection and of the dispatcher *)




(** X4. The source tag of an evaluation tells the path that produced it:
    rule when the backend is not used, llm when it is used and answers with
    finite numbers, rule_fallback (with the error as notes) when it is used
    and fails; the rule paths never carry the backend's notes. *)
Theorem evaluation_provenance (config : EvaluatorConfig) (reply : LlmReply)
    (lead : Lead) (strategy response : string) :
  (source (evaluateLeadAdaptive config reply lead strategy response) = "rule" ↔
   shouldUseLlm config = false) ∧
  (source (evaluateLeadAdaptive config reply lead strategy response) = "llm" ↔
   shouldUseLlm config = true ∧ ∃ value, evaluateByLlm reply = LlmOk value) ∧
  (source (evaluateLeadAdaptive config reply lead strategy response) = "rule_fallback" ↔
   shouldUseLlm config = true ∧ ∃ error, evaluateByLlm reply = LlmError error) ∧
  (source (evaluateLeadAdaptive config reply lead strategy response) = "rule_fallback" →
   ∃ error, evaluateByLlm reply = LlmError error ∧
            notes (evaluateLeadAdaptive config reply lead strategy response) = Some error) ∧
  (source (evaluateLeadAdaptive config reply lead strategy response) = "rule" →
   notes (evaluateLeadAdaptive config reply lead strategy response) = None).
Proof.
  unfold evaluateLeadAdaptive.
  destruct (shouldUseLlm config); cbn [negb].
  - destruct (evaluateByLlm reply) as [value | error] eqn:E.
    + pose proof (evaluateByLlm_bounds _ _ E) as (Hsrc & _). rewrite Hsrc.
      repeat split; intros; settle_effects.
    + cbn [source notes]. repeat split; intros; settle_effects.
  - cbn [evaluateByRules source notes]. repeat split; intros; settle_effects.
Qed.

(** * The round loop, continued *)

Lemma sliceLast_short {A} (n : nat) (l : list A) : (length l ≤ n)%nat → sliceLast n l = l.
Proof.
  intros H. unfold sliceLast. replace (length l - n)%nat with 0%nat by lia. reflexivity.
Qed.

Lemma sliceLast_length {A} (n : nat) (l : list A) : (length (sliceLast n l) ≤ n)%nat.
Proof. unfold sliceLast. rewrite length_drop. lia. Qed.

(** Capping twice is capping once. *)
Lemma sliceLast_app {A} (n : nat) (l k : list A) :
  sliceLast n (sliceLast n l ++ k) = sliceLast n (l ++ k).
Proof.
  unfold sliceLast at 2. rewrite <- (drop_app_le l k) by lia.
  unfold sliceLast. rewrite drop_drop. f_equal.
  rewrite length_drop, !length_app. lia.
Qed.

Lemma pushCapped_sliceLast (history : list HistoryEvent) (e : HistoryEvent) :
  pushCapped history e = sliceLast 200 (history ++ [e]).
Proof.
  unfold pushCapped. destruct (200 <? length (history ++ [e]))%nat eqn:E.
  - reflexivity.
  - apply Nat.ltb_ge in E. symmetry. apply sliceLast_short, E.
Qed.

Section Candidates.
Variable evaluate : Lead → string → string → EvaluationResult.

(** The candidate map of a lead: one entry per strategy of the catalog,
    in catalog order, each the evaluation of that strategy's response. *)
Lemma evaluateCandidates_catalog (lead : Lead) :
  ∃ r1 r2 r3,
    buildResponse "consultative" lead = Some r1 ∧
    buildResponse "social_proof" lead = Some r2 ∧
    buildResponse "urgent_offer" lead = Some r3 ∧
    evaluateCandidates evaluate lead
      = Some [ ("consultative", evaluate lead "consultative" r1);
               ("social_proof", evaluate lead "social_proof" r2);
               ("urgent_offer", evaluate lead "urgent_offer" r3) ].
Proof. eexists _, _, _. repeat split; reflexivity. Qed.

Lemma evaluateCandidates_entry (lead : Lead)
    (candidateScores : list (string * EvaluationResult)) :
  evaluateCandidates evaluate lead = Some candidateScores →
  (∀ k r, (k, r) ∈ candidateScores → k ∈ STRATEGIES) ∧
  (∀ strategy response result,
     strategy ∈ STRATEGIES →
     buildResponse strategy lead = Some response →
     tableGet strategy candidateScores = Some result →
     result = evaluate lead strategy response ∧ (strategy, result) ∈ candidateScores).
Proof.
  destruct (evaluateCandidates_catalog lead) as (r1 & r2 & r3 & H1 & H2 & H3 & Hc).
  rewrite Hc. intros H. injection H as <-. split.
  - intros k r Hin. rewrite !elem_of_cons, elem_of_nil in Hin. unfold STRATEGIES.
    rewrite !elem_of_cons.
    destruct Hin as [H | [H | [H | []]]]; injection H as -> _; tauto.
  - intros strategy response result Hin Hb Ht. unfold STRATEGIES in Hin.
    rewrite !elem_of_cons, elem_of_nil in Hin.
    destruct Hin as [-> | [-> | [-> | []]]]; cbn in Ht; injection Ht as <-.
    + rewrite H1 in Hb. injection Hb as ->. split; [reflexivity | apply list_elem_of_here].
    + rewrite H2 in Hb. injection Hb as ->.
      split; [reflexivity | apply list_elem_of_further, list_elem_of_here].
    + rewrite H3 in Hb. injection Hb as ->.
      split; [reflexivity |].
      apply list_elem_of_further, list_elem_of_further, list_elem_of_here.
Qed.

End Candidates.

Section RoundSteps.
Variable evaluate : Lead → string → string → EvaluationResult.
Variable startCall : option string → option CallResult.
Variable clock : Z → nat → string.
Variables warmupEpochs minEpochForVoice : Z.
Variable voiceChannelEnabled : bool.

Local Abbreviation leadStep :=
  (processLead evaluate startCall clock warmupEpochs minEpochForVoice voiceChannelEnabled).
Local Abbreviation leadLoop :=
  (processLeads evaluate startCall clock warmupEpochs minEpochForVoice voiceChannelEnabled).
Local Abbreviation roundStep :=
  (runEpoch evaluate startCall clock warmupEpochs minEpochForVoice voiceChannelEnabled).

(** Everything one turn of the lead loop does. *)
Lemma processLead_steps (epoch : Z) (memory : Memory) (events : list RoundEvent)
    (lead : Lead) (memory' : Memory) (events' : list RoundEvent) :
  leadStep epoch memory events lead = Some (memory', events') →
  ∃ strategy response candidateScores voice,
    strategy ∈ STRATEGIES ∧
    buildResponse strategy lead = Some response ∧
    (∀ k r, (k, r) ∈ candidateScores → k ∈ STRATEGIES) ∧
    (strategy, evaluate lead strategy response) ∈ candidateScores ∧
    updateMemory memory lead strategy (evaluate lead strategy response) epoch response
      candidateScores (clock epoch (length events)) = Some memory' ∧
    events' = (events ++ [ {| e_leadId := id lead;
                              e_name := name lead;
                              e_textChannel := channel lead;
                              e_objectionType := objectionType lead;
                              e_strategy := strategy;
                              e_score := score (evaluate lead strategy response);
                              e_conversionProbability :=
                                conversionProbability (evaluate lead strategy response);
                              e_voice := voice;
                              e_evaluator := source (evaluate lead strategy response) |} ])%list.
Proof.
  unfold processLead. intros H.
  destruct (selectStrategy_in_catalog epoch warmupEpochs (length events) memory
              (objectionType lead)) as (strategy & Hsel & Hin).
  rewrite Hsel in H. cbn [mbind option_bind] in H.
  destruct (evaluateCandidates evaluate lead) as [cands |] eqn:Hc; [| discriminate].
  cbn [mbind option_bind] in H.
  destruct (buildResponse strategy lead) as [response |] eqn:Hb; [| discriminate].
  cbn [mbind option_bind] in H.
  destruct (tableGet strategy cands) as [result |] eqn:Hres; [| discriminate].
  cbn [mbind option_bind] in H.
  destruct (evaluateCandidates_entry evaluate lead cands Hc) as [Hkeys Hentry].
  destruct (Hentry strategy response result Hin Hb Hres) as [-> Hused].
  destruct (updateMemory _ _ _ _ _ _ _ _) as [m1 |] eqn:Hupd; [| discriminate].
  cbn [mbind option_bind] in H.
  destruct (if shouldEscalateToVoice lead (evaluate lead strategy response) epoch
                 minEpochForVoice
            then maybeStartVoiceFollowup startCall voiceChannelEnabled lead
            else Some (NotAttempted "NO_ESCALATION")) as [voice |]; [| discriminate].
  cbn [mbind option_bind] in H. injection H as <- <-.
  exists strategy, response, cands, voice. repeat split; assumption || reflexivity.
Qed.

End RoundSteps.

Lemma timesAssigned_cons (s : string) (event : RoundEvent) (events : list RoundEvent) :
  timesAssigned s (event :: events)
    = ((if decide (e_strategy event = s) then 1 else 0) + timesAssigned s events)%Z.
Proof.
  unfold timesAssigned. rewrite filter_cons.
  destruct (decide (e_strategy event = s)); cbn [length]; lia.
Qed.


Section RoundStatistics.
Variable evaluate : Lead → string → string → EvaluationResult.
Variable startCall : option string → option CallResult.
Variable clock : Z → nat → string.
Variables warmupEpochs minEpochForVoice : Z.
Variable voiceChannelEnabled : bool.

Local Abbreviation leadStep :=
  (processLead evaluate startCall clock warmupEpochs minEpochForVoice voiceChannelEnabled).
Local Abbreviation leadLoop :=
  (processLeads evaluate startCall clock warmupEpochs minEpochForVoice voiceChannelEnabled).
Local Abbreviation roundStep :=
  (runEpoch evaluate startCall clock warmupEpochs minEpochForVoice voiceChannelEnabled).

(** One lead: one event, and one strategy's statistics replaced. *)
Lemma processLead_stats (epoch : Z) (memory : Memory) (events : list RoundEvent)
    (lead : Lead) (memory' : Memory) (events' : list RoundEvent) :
  leadStep epoch memory events lead = Some (memory', events') →
  ∃ event st st',
    events' = (events ++ [event])%list ∧
    (∃ l c r, e_score event = score (evaluate l c r)) ∧
    strategyStats memory !! e_strategy event = Some st ∧
    strategyStats memory' = <[e_strategy event := st']> (strategyStats memory) ∧
    uses st' = (uses st + 1)%Z ∧
    totalScore st' = toFixed 4 (totalScore st + e_score event) ∧
    avgScore st' = toFixed 4 (getAverage st').
Proof.
  intros H. apply processLead_steps in H
    as (strategy & response & cands & voice & _ & _ & _ & _ & Hupd & ->).
  destruct (updateMemory_needs_stats _ _ _ _ _ _ _ _ _ Hupd) as [st Hst].
  destruct (updateMemory_fields memory lead strategy (evaluate lead strategy response)
              epoch response cands (clock epoch (length events)) st Hst)
    as (m & st' & Hm & Huses & Htotal & Havg & _ & _ & Hmap & _).
  rewrite Hupd in Hm. injection Hm as <-.
  eexists _, st, st'. split; [reflexivity |]. cbn [e_strategy e_score].
  split; [eauto |]. repeat split; assumption.
Qed.

(** The use counters count the assignments of the loop. *)
Lemma processLeads_uses (epoch : Z) (leads : list Lead) :
  ∀ memory events memory' events',
    leadLoop epoch memory events leads = Some (memory', events') →
    ∃ added,
      events' = (events ++ added)%list ∧ length added = length leads ∧
      ∀ s,
        match strategyStats memory !! s with
        | Some st =>
            ∃ st', strategyStats memory' !! s = Some st' ∧
                   uses st' = (uses st + timesAssigned s added)%Z
        | None => strategyStats memory' !! s = None ∧ timesAssigned s added = 0%Z
        end.
Proof.
  induction leads as [| lead rest IH]; intros memory events memory' events' H.
  - injection H as <- <-. exists []. rewrite app_nil_r.
    split; [reflexivity |]. split; [reflexivity |].
    intros s. destruct (strategyStats memory !! s) as [st |]; [| split; reflexivity].
    exists st. split; [reflexivity |]. unfold timesAssigned. cbn. lia.
  - cbn [processLeads] in H.
    destruct (leadStep epoch memory events lead) as [[m1 ev1] |] eqn:E; [| discriminate].
    cbn [mbind option_bind] in H.
    apply processLead_stats in E
      as (event & st & st' & -> & _ & Hst & Hmap & Huses & _).
    destruct (IH _ _ _ _ H) as (added & -> & Hlen & Hall).
    exists (event :: added). rewrite <- app_assoc. split; [reflexivity |].
    split; [cbn [length]; lia |].
    intros s. specialize (Hall s). rewrite Hmap in Hall. rewrite timesAssigned_cons.
    destruct (decide (e_strategy event = s)) as [<- | Hne].
    + rewrite lookup_insert_eq in Hall. rewrite Hst.
      destruct Hall as (st2 & Hst2 & Hu2). exists st2. split; [exact Hst2 | lia].
    + rewrite lookup_insert_ne in Hall by exact Hne.
      destruct (strategyStats memory !! s) as [st0 |].
      * destruct Hall as (st2 & Hst2 & Hu2). exists st2. split; [exact Hst2 | lia].
      * destruct Hall as [Hn Ht]. split; [exact Hn | lia].
Qed.



End RoundStatistics.



Section RoundHistory.
Variable evaluate : Lead → string → string → EvaluationResult.
Variable startCall : option string → option CallResult.
Variable clock : Z → nat → string.
Variables warmupEpochs minEpochForVoice : Z.
Variable voiceChannelEnabled : bool.

Local Abbreviation leadStep :=
  (processLead evaluate startCall clock warmupEpochs minEpochForVoice voiceChannelEnabled).
Local Abbreviation leadLoop :=
  (processLeads evaluate startCall clock warmupEpochs minEpochForVoice voiceChannelEnabled).

(** The history entries of a loop mirror its events, and the log is the
    capped concatenation. *)
Lemma processLeads_history (epoch : Z) (leads : list Lead) :
  ∀ memory events memory' events',
    leadLoop epoch memory events leads = Some (memory', events') →
    ∃ added entries,
      events' = (events ++ added)%list ∧
      h_strategy <$> entries = e_strategy <$> added ∧
      h_score <$> entries = e_score <$> added ∧
      h_leadId <$> entries = id <$> leads ∧
      h_objectionType <$> entries = objectionType <$> leads ∧
      Forall (λ entry, h_epoch entry = epoch) entries ∧
      (leads = [] → history memory' = history memory) ∧
      (leads ≠ [] → history memory' = sliceLast 200 (history memory ++ entries)).
Proof.
  induction leads as [| lead rest IH]; intros memory events memory' events' H.
  - injection H as <- <-. exists [], []. rewrite app_nil_r.
    repeat split; try reflexivity; [constructor | congruence].
  - cbn [processLeads] in H.
    destruct (leadStep epoch memory events lead) as [[m1 ev1] |] eqn:E; [| discriminate].
    cbn [mbind option_bind] in H.
    apply processLead_steps in E
      as (strategy & response & cands & voice & _ & _ & _ & _ & Hupd & ->).
    destruct (updateMemory_needs_stats _ _ _ _ _ _ _ _ _ Hupd) as [st Hst].
    destruct (updateMemory_fields memory lead strategy (evaluate lead strategy response)
                epoch response cands (clock epoch (length events)) st Hst)
      as (m & _ & Hm & _ & _ & _ & _ & _ & _ & _ & Hhist).
    rewrite Hupd in Hm. injection Hm as <-.
    rewrite pushCapped_sliceLast in Hhist.
    destruct (IH _ _ _ _ H) as (added & entries & -> & Hs & Hsc & Hid & Hobj & Hep & Hnil & Hcons).
    eexists (_ :: added),
      (historyEntry epoch lead strategy (evaluate lead strategy response) response
         (clock epoch (length events)) :: entries).
    rewrite <- app_assoc. split; [reflexivity |]. rewrite !fmap_cons.
    split; [rewrite Hs; reflexivity |]. split; [rewrite Hsc; reflexivity |].
    split; [rewrite Hid; reflexivity |]. split; [rewrite Hobj; reflexivity |].
    split; [constructor; [reflexivity | exact Hep] |].
    split; [discriminate |]. intros _.
    destruct rest as [| lead2 rest].
    + rewrite (Hnil eq_refl), Hhist.
      apply map_eq_nil in Hid. subst entries. reflexivity.
    + rewrite (Hcons ltac:(discriminate)), Hhist, sliceLast_app, <- app_assoc.
      reflexivity.
Qed.


End RoundHistory.

(** X6. A completed round appends one history entry per lead, in lead
    order, carrying the lead's id and category, the round's index and the
    strategy and score of the lead's event; the history after the round is
    the last 200 entries of the old history followed by those entries (the
    old history itself when there is no lead). *)
Theorem round_extends_history evaluate startCall clock warmupEpochs minEpochForVoice
    voiceChannelEnabled (epoch : Z) (memory : Memory) (leads : list Lead)
    (memory' : Memory) (round : Round) :
  runEpoch evaluate startCall clock warmupEpochs minEpochForVoice voiceChannelEnabled
    epoch memory leads = Some (memory', round) →
  ∃ entries,
    h_leadId <$> entries = id <$> leads ∧
    h_objectionType <$> entries = objectionType <$> leads ∧
    h_strategy <$> entries = assigned (r_events round) ∧
    h_score <$> entries = e_score <$> r_events round ∧
    Forall (λ entry, h_epoch entry = epoch) entries ∧
    (leads = [] → history memory' = history memory) ∧
    (leads ≠ [] → history memory' = sliceLast 200 (history memory ++ entries)) ∧
    ((length (history memory) ≤ 200)%nat →
     history memory' = sliceLast 200 (history memory ++ entries)).
Proof.
  intros Hrun.
  apply runEpoch_inv in Hrun as (m1 & Hloop & _ & _ & _ & _ & _ & Hhist).
  apply processLeads_history in Hloop
    as (added & entries & Heq & Hs & Hsc & Hid & Hobj & Hep & Hnil & Hcons).
  cbn [app] in Heq. subst added. rewrite Hhist. exists entries.
  split; [exact Hid |]. split; [exact Hobj |]. split; [exact Hs |].
  split; [exact Hsc |]. split; [exact Hep |]. split; [exact Hnil |].
  split; [exact Hcons |].
  intros Hshort. destruct leads as [| lead rest].
  - rewrite (Hnil eq_refl). apply map_eq_nil in Hid. subst entries.
    rewrite app_nil_r. symmetry. apply sliceLast_short, Hshort.
  - apply Hcons. discriminate.
Qed.

Lemma round_extends_history_witness :
  ∃ memory' round,
    scenarioRound1 = Some (memory', round) ∧
    h_leadId <$> history memory' = ["lead-001"; "lead-002"; "lead-003"].
Proof.
  destruct scenarioRound1 as [[m r] |] eqn:E; [| vm_compute in E; discriminate].
  exists m, r. split; [reflexivity |].
  unfold scenarioRound1 in E.
  destruct (round_extends_history _ _ _ _ _ _ _ _ _ _ _ E)
    as (entries & Hid & _ & _ & _ & _ & _ & _ & Hhist).
  rewrite Hhist by (cbn; lia).
  change (history INITIAL_MEMORY ++ entries)%list with entries.
  rewrite sliceLast_short; [exact Hid |].
  rewrite <- (length_fmap h_leadId), Hid. cbn. lia.
Defined.



(** The bookkeeping of one round. *)
Lemma round_counts_basic evaluate startCall clock warmupEpochs minEpochForVoice
    voiceChannelEnabled (epoch : Z) (memory : Memory) (leads : list Lead)
    (memory' : Memory) (round : Round) :
  runEpoch evaluate startCall clock warmupEpochs minEpochForVoice voiceChannelEnabled
    epoch memory leads = Some (memory', round) →
  runs memory' = (runs memory + 1)%Z ∧
  length (r_events round) = length leads ∧
  r_epoch round = epoch.
Proof.
  intros Hrun.
  pose proof Hrun as Hinv. apply runEpoch_inv in Hinv as (m1 & Hloop & Hep & _ & Hruns & _).
  pose proof (processLeads_uses _ _ _ _ _ _ _ _ _ _ _ _ Hloop) as (added & Heq & Hlen & _).
  cbn [app] in Heq. subst added.
  assert (runs m1 = runs memory) as Hr1.
  { clear Hruns Hrun Hlen. revert Hloop. generalize (@nil RoundEvent) at 1.
    generalize (r_events round). revert memory.
    induction leads as [| lead rest IH]; intros memory ev' ev H.
    - injection H as <- _. reflexivity.
    - cbn [processLeads] in H.
      destruct (processLead _ _ _ _ _ _ epoch memory ev lead) as [[m2 ev2] |] eqn:E;
        [| discriminate].
      cbn [mbind option_bind] in H. rewrite (IH _ _ _ H).
      apply processLead_steps in E
        as (strategy & response & cands & voice & _ & _ & _ & _ & Hupd & _).
      destruct (updateMemory_needs_stats _ _ _ _ _ _ _ _ _ Hupd) as [st Hst].
      destruct (updateMemory_fields memory lead strategy
                  (evaluate lead strategy response) epoch response cands
                  (clock epoch (length ev)) st Hst)
        as (m & _ & Hm & _ & _ & _ & Hruns & _).
      rewrite Hupd in Hm. injection Hm as <-. exact Hruns. }
  split; [lia |]. split; [exact Hlen | exact Hep].
Qed.

(** * Runs of several rounds *)

Lemma onGrid_minus (f : nat) (x y : Q) : onGrid f x → onGrid f y → onGrid f (x - y)%Q.
Proof.
  intros [n Hn] [k Hk]. exists (n - k)%Z. rewrite Hn, Hk.
  unfold Z.sub. rewrite inject_Z_plus, inject_Z_opp.
  pose proof (pow10_Q_pos f). field. lra.
Qed.

Lemma onGrid_zero (f : nat) : onGrid f 0%Q.
Proof. exists 0%Z. unfold Qdiv. ring. Qed.

Lemma decayExploration_policy (m1 m2 : Memory) :
  policy m1 = policy m2 → policy (decayExploration m1) = policy (decayExploration m2).
Proof. intros H. unfold decayExploration. cbn [policy]. rewrite H. reflexivity. Qed.

Lemma iter_decay_policy (n : nat) (m1 m2 : Memory) :
  policy m1 = policy m2 →
  policy (Nat.iter n decayExploration m1) = policy (Nat.iter n decayExploration m2).
Proof.
  intros H. induction n as [| n IH]; [exact H |].
  cbn [Nat.iter]. apply decayExploration_policy, IH.
Qed.

Section Runs.
Variable evaluate : Lead → string → string → EvaluationResult.
Variable startCall : option string → option CallResult.
Variable clock : Z → nat → string.
Variables warmupEpochs minEpochForVoice : Z.
Variable voiceChannelEnabled : bool.

Local Abbreviation roundStep :=
  (runEpoch evaluate startCall clock warmupEpochs minEpochForVoice voiceChannelEnabled).
Local Abbreviation roundLoop :=
  (runEpochs evaluate startCall clock warmupEpochs minEpochForVoice voiceChannelEnabled).

Lemma runEpoch_avgScore (epoch : Z) (memory : Memory) (leads : list Lead)
    (memory' : Memory) (round : Round) :
  roundStep epoch memory leads = Some (memory', round) →
  r_avgScore round = toFixed 3 (average (e_score <$> r_events round)).
Proof.
  unfold runEpoch. intros H.
  destruct (processLeads _ _ _ _ _ _ epoch memory [] leads) as [[m1 events] |];
    [| discriminate].
  cbn [mbind option_bind] in H. injection H as _ <-. reflexivity.
Qed.

(** What a completed sequence of rounds leaves. *)
Lemma runEpochs_inv (remaining : nat) (leads : list Lead) :
  ∀ epoch memory rounds memory' rounds',
    roundLoop remaining epoch memory rounds leads = Some (memory', rounds') →
    ∃ added,
      rounds' = (rounds ++ added)%list ∧ length added = remaining ∧
      (∀ i r, added !! i = Some r →
         r_epoch r = (epoch + Z.of_nat i)%Z ∧ length (r_events r) = length leads ∧
         onGrid 3 (r_avgScore r)) ∧
      runs memory' = (runs memory + Z.of_nat remaining)%Z ∧
      policy memory' = policy (Nat.iter remaining decayExploration memory).
Proof.
  induction remaining as [| k IH]; intros epoch memory rounds memory' rounds' H.
  - injection H as <- <-. exists []. rewrite app_nil_r.
    split; [reflexivity |]. split; [reflexivity |].
    split; [intros i r Hi; rewrite lookup_nil in Hi; discriminate |].
    split; [lia | reflexivity].
  - cbn [runEpochs] in H.
    destruct (roundStep epoch memory leads) as [[m1 round] |] eqn:E; [| discriminate].
    cbn [mbind option_bind] in H.
    destruct (IH _ _ _ _ _ H) as (added & -> & Hlen & Hall & Hruns & Hpol).
    pose proof (runEpoch_avgScore _ _ _ _ _ E) as Havg.
    pose proof (runEpoch_policy _ _ _ _ _ _ _ _ _ _ _ E) as Hp1.
    destruct (round_counts_basic _ _ _ _ _ _ _ _ _ _ _ E) as (Hr1 & Hl1 & He1).
    exists (round :: added). rewrite <- app_assoc.
    split; [reflexivity |]. split; [cbn [length]; lia |].
    split; [| split].
    + intros [| i] r Hi.
      * injection Hi as <-. rewrite Z.add_0_r.
        split; [exact He1 |]. split; [exact Hl1 |].
        rewrite Havg. apply toFixed_onGrid.
      * destruct (Hall i r Hi) as (Hep & Hl & Hg). split; [lia | split; assumption].
    + lia.
    + rewrite Hpol, Nat.iter_succ_r. apply iter_decay_policy, Hp1.
Qed.


End Runs.



(** X9. The summary of a run reports as delta exactly the last round's
    average minus the first round's: both have three decimals, so the final
    rounding changes nothing; without rounds all three numbers are 0. *)
Theorem report_delta_exact evaluate startCall clock warmupEpochs minEpochForVoice
    voiceChannelEnabled (epochs : Z) (memory : Memory) (leads : list Lead)
    (memory' : Memory) (rounds : list Round) :
  main evaluate startCall clock warmupEpochs minEpochForVoice voiceChannelEnabled
    epochs memory leads = Some (memory', rounds) →
  (delta (summarize rounds)
     == lastEpochAvg (summarize rounds) - firstEpochAvg (summarize rounds))%Q ∧
  (∀ first, head rounds = Some first →
            firstEpochAvg (summarize rounds) = r_avgScore first ∧ r_epoch first = 1%Z) ∧
  (∀ final, last rounds = Some final →
            lastEpochAvg (summarize rounds) = r_avgScore final ∧
            r_epoch final = Z.of_nat (length rounds)) ∧
  (rounds = [] →
   (firstEpochAvg (summarize rounds) == 0)%Q ∧ (lastEpochAvg (summarize rounds) == 0)%Q ∧
   (delta (summarize rounds) == 0)%Q).
Proof.
  unfold main. intros Hrun.
  pose proof (runEpochs_inv _ _ _ _ _ _ _ _ _ _ _ _ _ Hrun)
    as (added & Heq & Hlen & Hall & _).
  cbn [app] in Heq. subst added.
  assert (onGrid 3 (firstEpochAvg (summarize rounds))) as Hfirst.
  { unfold summarize. cbn [firstEpochAvg]. destruct (head rounds) as [r |] eqn:E.
    - rewrite head_lookup in E. apply (Hall 0%nat r E).
    - apply onGrid_zero. }
  assert (onGrid 3 (lastEpochAvg (summarize rounds))) as Hlast.
  { unfold summarize. cbn [lastEpochAvg]. destruct (last rounds) as [r |] eqn:E.
    - rewrite last_lookup in E. apply (Hall _ r E).
    - apply onGrid_zero. }
  split; [| split; [| split]].
  - unfold summarize in *. cbn [delta firstEpochAvg lastEpochAvg] in *.
    apply toFixed_grid, onGrid_minus; assumption.
  - intros first Hhead. unfold summarize. cbn [firstEpochAvg]. rewrite Hhead.
    split; [reflexivity |]. rewrite head_lookup in Hhead.
    destruct (Hall 0%nat first Hhead) as (Hep & _). lia.
  - intros final Hfinal. unfold summarize. cbn [lastEpochAvg]. rewrite Hfinal.
    split; [reflexivity |]. rewrite last_lookup in Hfinal.
    destruct (Hall _ final Hfinal) as (Hep & _).
    apply lookup_lt_Some in Hfinal. lia.
  - intros ->. cbn. repeat split; reflexivity.
Qed.

Lemma report_delta_exact_witness :
  ∃ memory' rounds,
    main ruleEvaluator dryRunCall fixedClock 1 2 true 2 INITIAL_MEMORY scenarioLeads
      = Some (memory', rounds) ∧
    (delta (summarize rounds)
       == lastEpochAvg (summarize rounds) - firstEpochAvg (summarize rounds))%Q.
Proof.
  destruct (main ruleEvaluator dryRunCall fixedClock 1 2 true 2 INITIAL_MEMORY
              scenarioLeads) as [[m rs] |] eqn:E; [| vm_compute in E; discriminate].
  exists m, rs. split; [reflexivity |].
  apply (report_delta_exact _ _ _ _ _ _ _ _ _ _ _ E).
Defined.


(** * Averages *)

Section Average.
Local Open Scope Q_scope.



End Average.

Section RoundAverage.
Variable evaluate : Lead → string → string → EvaluationResult.
Variable startCall : option string → option CallResult.
Variable clock : Z → nat → string.
Variables warmupEpochs minEpochForVoice : Z.
Variable voiceChannelEnabled : bool.


End RoundAverage.



(** * The voice switch *)

Section VoiceOff.
Variable evaluate : Lead → string → string → EvaluationResult.
Variable clock : Z → nat → string.
Variables warmupEpochs minEpochForVoice : Z.

(** With the voice channel off, the dispatcher plays no part in a lead's
    turn. *)
Lemma processLead_voice_off (startCall1 startCall2 : option string → option CallResult)
    (epoch : Z) (memory : Memory) (events : list RoundEvent) (lead : Lead) :
  processLead evaluate startCall1 clock warmupEpochs minEpochForVoice false
    epoch memory events lead
  = processLead evaluate startCall2 clock warmupEpochs minEpochForVoice false
      epoch memory events lead.
Proof. reflexivity. Qed.

Lemma processLeads_voice_off (startCall1 startCall2 : option string → option CallResult)
    (epoch : Z) (leads : list Lead) :
  ∀ memory events,
    processLeads evaluate startCall1 clock warmupEpochs minEpochForVoice false
      epoch memory events leads
    = processLeads evaluate startCall2 clock warmupEpochs minEpochForVoice false
        epoch memory events leads.
Proof.
  induction leads as [| lead rest IH]; intros memory events; [reflexivity |].
  cbn [processLeads]. rewrite (processLead_voice_off startCall1 startCall2).
  destruct (processLead evaluate startCall2 clock warmupEpochs minEpochForVoice false
              epoch memory events lead) as [[m1 ev1] |]; [| reflexivity].
  cbn [mbind option_bind]. apply IH.
Qed.

Lemma processLeads_no_attempt (startCall : option string → option CallResult)
    (epoch : Z) (leads : list Lead) :
  ∀ memory events memory' events',
    processLeads evaluate startCall clock warmupEpochs minEpochForVoice false
      epoch memory events leads = Some (memory', events') →
    ∃ added, events' = (events ++ added)%list ∧
             Forall (λ e, attempted (e_voice e) = false) added.
Proof.
  induction leads as [| lead rest IH]; intros memory events memory' events' H.
  - injection H as _ <-. exists []. rewrite app_nil_r. split; [reflexivity | constructor].
  - cbn [processLeads] in H.
    destruct (processLead evaluate startCall clock warmupEpochs minEpochForVoice false
                epoch memory events lead) as [[m1 ev1] |] eqn:E; [| discriminate].
    cbn [mbind option_bind] in H.
    destruct (IH _ _ _ _ H) as (added & -> & Hall).
    unfold processLead in E.
    destruct (selectStrategy _ _ _ _ _) as [strategy |]; [| discriminate].
    cbn [mbind option_bind] in E.
    destruct (evaluateCandidates evaluate lead) as [cands |]; [| discriminate].
    cbn [mbind option_bind] in E.
    destruct (buildResponse strategy lead) as [response |]; [| discriminate].
    cbn [mbind option_bind] in E.
    destruct (tableGet strategy cands) as [result |]; [| discriminate].
    cbn [mbind option_bind] in E.
    destruct (updateMemory _ _ _ _ _ _ _ _) as [m2 |]; [| discriminate].
    cbn [mbind option_bind maybeStartVoiceFollowup negb] in E.
    destruct (shouldEscalateToVoice lead result epoch minEpochForVoice);
      cbn [mbind option_bind] in E; injection E as <- <-;
      (eexists (_ :: added); rewrite <- app_assoc; split; [reflexivity |];
       constructor; [reflexivity | exact Hall]).
Qed.

End VoiceOff.

(** X11. With the voice channel switched off a round never attempts a
    call: from a memory that has the catalog's statistics it completes
    whatever the dispatcher would do, every event is recorded as not
    attempted, and the outcome is the same for any dispatcher. *)
Theorem voice_off_never_dispatches evaluate clock warmupEpochs minEpochForVoice
    (epoch : Z) (memory : Memory) (leads : list Lead) :
  hasCatalogStats memory →
  ∃ memory' round,
    (∀ startCall,
       runEpoch evaluate startCall clock warmupEpochs minEpochForVoice false
         epoch memory leads = Some (memory', round)) ∧
    Forall (λ e, attempted (e_voice e) = false) (r_events round).
Proof.
  intros Hwf.
  set (quiet := λ _ : option string, Some (mkCall false "" None None None)).
  destruct (runEpoch_returns evaluate quiet clock warmupEpochs minEpochForVoice false
              ltac:(intros p; unfold quiet; eauto) epoch memory leads Hwf)
    as (memory' & round & Hrun & _).
  exists memory', round. split.
  - intros startCall. rewrite <- Hrun. unfold runEpoch.
    rewrite (processLeads_voice_off evaluate clock warmupEpochs minEpochForVoice
               startCall quiet). reflexivity.
  - apply runEpoch_inv in Hrun as (m1 & Hloop & _).
    apply processLeads_no_attempt in Hloop as (added & Heq & Hall).
    cbn [app] in Heq. subst added. exact Hall.
Qed.

Lemma voice_off_never_dispatches_witness :
  ∃ memory' round,
    runEpoch ruleEvaluator (λ _, None) fixedClock 1 2 false 2 INITIAL_MEMORY scenarioLeads
      = Some (memory', round) ∧
    Forall (λ e, attempted (e_voice e) = false) (r_events round).
Proof.
  destruct (voice_off_never_dispatches ruleEvaluator fixedClock 1 2 2 INITIAL_MEMORY
              scenarioLeads INITIAL_MEMORY_stats) as (memory' & round & Hrun & Hall).
  exists memory', round. split; [apply Hrun | exact Hall].
Defined.

(** * Responses and the rule evaluator *)

Lemma append_cons (c : ascii) (a b : string) : String c a ++ b = String c (a ++ b).
Proof. reflexivity. Qed.

Lemma append_assoc' (a b c : string) : (a ++ b) ++ c = a ++ (b ++ c).
Proof.
  induction a as [| x a IH]; [reflexivity |].
  rewrite !append_cons, IH. reflexivity.
Qed.

Lemma prefix_nil (s : string) : String.prefix "" s = true.
Proof. destruct s; reflexivity. Qed.

Lemma prefix_app (n t : string) : String.prefix n (n ++ t) = true.
Proof.
  induction n as [| c n IH]; [apply prefix_nil |]. rewrite append_cons. cbn.
  destruct (ascii_dec c c) as [_ | Hne]; [exact IH | contradiction].
Qed.



(** A string found in a part is found in the whole. *)
Lemma includes_app_r (n a s : string) : includes n s = true → includes n (a ++ s) = true.
Proof.
  intros H. induction a as [| c a IH]; [exact H |].
  rewrite append_cons. cbn [includes]. rewrite IH. apply orb_true_r.
Qed.











Section RuleScore.
Local Open Scope Q_scope.






End RuleScore.




(** * Command-line arguments *)

Lemma find_first {A} (p : A → bool) (before : list A) (x : A) (after : list A) :
  (∀ a, a ∈ before → p a = false) → p x = true →
  List.find p (before ++ x :: after) = Some x.
Proof.
  intros Hbefore Hx. induction before as [| b before IH]; cbn [app List.find].
  - rewrite Hx. reflexivity.
  - rewrite (Hbefore b (list_elem_of_here _ _)).
    apply IH. intros a Ha. apply Hbefore, list_elem_of_further, Ha.
Qed.

Lemma find_none {A} (p : A → bool) (l : list A) :
  (∀ a, a ∈ l → p a = false) → List.find p l = None.
Proof.
  intros Hall. induction l as [| b l IH]; [reflexivity |]. cbn [List.find].
  rewrite (Hall b (list_elem_of_here _ _)).
  apply IH. intros a Ha. apply Hall, list_elem_of_further, Ha.
Qed.

(** The first piece of a split: the text before the first separator. *)
Lemma splitOn_head (sep : ascii) (s : string) :
  ∃ piece pieces,
    splitOn sep s = piece :: pieces ∧
    indexOfChar sep piece = None ∧
    ((s = piece ∧ pieces = []) ∨
     ∃ rest, s = piece ++ String sep rest ∧ pieces = splitOn sep rest).
Proof.
  induction s as [| c s (piece & pieces & Hs & Hnone & Hshape)].
  - exists "", []. split; [reflexivity |]. split; [reflexivity |]. left. split; reflexivity.
  - cbn [splitOn]. destruct (Ascii.eqb c sep) eqn:E.
    + apply Ascii.eqb_eq in E. subst c.
      exists "", (splitOn sep s). split; [reflexivity |]. split; [reflexivity |].
      right. exists s. split; reflexivity.
    + rewrite Hs. exists (String c piece), pieces. split; [reflexivity |].
      split; [cbn [indexOfChar]; rewrite E, Hnone; reflexivity |].
      destruct Hshape as [[-> ->] | (rest & -> & ->)].
      * left. split; reflexivity.
      * right. exists rest. split; reflexivity.
Qed.

(** Splitting after a part that has no separator. *)
Lemma splitOn_app (sep : ascii) (a rest : string) :
  indexOfChar sep a = None →
  splitOn sep (a ++ String sep rest) = a :: splitOn sep rest.
Proof.
  induction a as [| c a IH]; intros Hnone.
  - cbn [append splitOn]. change ("" ++ String sep rest) with (String sep rest).
    cbn [splitOn]. rewrite Ascii.eqb_refl. reflexivity.
  - rewrite append_cons. cbn [splitOn]. cbn [indexOfChar] in Hnone.
    destruct (Ascii.eqb c sep); [discriminate |].
    destruct (indexOfChar sep a); [discriminate |].
    rewrite (IH eq_refl). reflexivity.
Qed.

Lemma indexOfChar_app_none (c : ascii) (a b : string) :
  indexOfChar c a = None → indexOfChar c b = None → indexOfChar c (a ++ b) = None.
Proof.
  intros Ha Hb. induction a as [| d a IH]; [exact Hb |].
  rewrite append_cons. cbn [indexOfChar] in *.
  destruct (Ascii.eqb d c); [discriminate |].
  destruct (indexOfChar c a); [discriminate |]. rewrite (IH eq_refl). reflexivity.
Qed.

(** X15. [getArg] answers with the fallback when no argument starts with
    [--name=]; otherwise it reads the first such argument and answers with
    what follows the [=] up to the next [=], if there is one: the value is
    cut at a second equals sign and may be empty. *)
Theorem getArg_reads_first_match (argv : list string) (name fallback : string) :
  indexOfChar "="%char name = None →
  ((∀ a, a ∈ argv → String.prefix ("--" ++ name ++ "=") a = false) →
   getArg argv name fallback = fallback) ∧
  (∀ before text after,
     argv = app before (("--" ++ name ++ "=" ++ text) :: after) →
     (∀ a, a ∈ before → String.prefix ("--" ++ name ++ "=") a = false) →
     indexOfChar "="%char (getArg argv name fallback) = None ∧
     (text = getArg argv name fallback ∨
      ∃ rest, text = getArg argv name fallback ++ String "="%char rest)).
Proof.
  intros Hname. split.
  - intros Habsent. unfold getArg. rewrite (find_none _ _ Habsent). reflexivity.
  - intros before text after -> Hbefore. unfold getArg.
    rewrite (find_first _ before ("--" ++ name ++ "=" ++ text) after Hbefore).
    + assert ("--" ++ name ++ "=" ++ text = ("--" ++ name) ++ String "="%char text) as ->
        by (rewrite append_assoc'; reflexivity).
      rewrite splitOn_app
        by (apply (indexOfChar_app_none "="%char "--" name); [reflexivity | exact Hname]).
      destruct (splitOn_head "="%char text) as (piece & pieces & -> & Hnone & Hshape).
      split; [exact Hnone |].
      destruct Hshape as [[-> _] | (rest & -> & _)]; [left; reflexivity |].
      right. exists rest. reflexivity.
    + assert ("--" ++ name ++ "=" ++ text = ("--" ++ name ++ "=") ++ text) as ->
        by (rewrite !append_assoc'; reflexivity).
      apply prefix_app.
Qed.

Lemma getArg_reads_first_match_witness :
  getArg ["node"; "run.mjs"; "--epochs=3=4"; "--epochs=9"] "epochs" "2" = "3" ∧
  getArg ["node"; "run.mjs"; "--voice="] "voice" "on" = "" ∧
  getArg ["node"; "run.mjs"] "epochs" "2" = "2".
Proof.
  destruct (getArg_reads_first_match ["node"; "run.mjs"] "epochs" "2" eq_refl) as [H _].
  split; [reflexivity |]. split; [reflexivity |].
  apply H. intros a Ha. rewrite !elem_of_cons, elem_of_nil in Ha.
  destruct Ha as [-> | [-> | []]]; reflexivity.
Defined.

(** * Objects recovered from a reply *)

Lemma string_length_app (a b : string) :
  String.length (a ++ b) = (String.length a + String.length b)%nat.
Proof.
  induction a as [| c a IH]; [reflexivity |].
  rewrite append_cons. cbn [String.length]. rewrite IH. reflexivity.
Qed.

Lemma sliceFrom_app (a s : string) : sliceFrom (String.length a) (a ++ s) = s.
Proof.
  induction a as [| c a IH]; [destruct s; reflexivity |].
  rewrite append_cons. cbn [String.length sliceFrom]. exact IH.
Qed.

Lemma sliceTo_app (s post : string) : sliceTo (String.length s) (s ++ post) = s.
Proof.
  induction s as [| c s IH]; [reflexivity |].
  rewrite append_cons. cbn [String.length sliceTo]. rewrite IH. reflexivity.
Qed.

Lemma indexOfChar_first (c : ascii) (pre rest : string) :
  indexOfChar c pre = None →
  indexOfChar c (pre ++ String c rest) = Some (String.length pre).
Proof.
  induction pre as [| d pre IH]; intros Hnone.
  - change ("" ++ String c rest) with (String c rest). cbn [indexOfChar].
    rewrite Ascii.eqb_refl. reflexivity.
  - rewrite append_cons. cbn [indexOfChar String.length] in *.
    destruct (Ascii.eqb d c); [discriminate |].
    destruct (indexOfChar c pre); [discriminate |]. rewrite (IH eq_refl). reflexivity.
Qed.

Lemma lastIndexOfChar_last (c : ascii) (a post : string) :
  lastIndexOfChar c post = None →
  lastIndexOfChar c (a ++ String c post) = Some (String.length a).
Proof.
  intros Hnone. induction a as [| d a IH].
  - change ("" ++ String c post) with (String c post). cbn [lastIndexOfChar].
    rewrite Hnone, Ascii.eqb_refl. reflexivity.
  - rewrite append_cons. cbn [lastIndexOfChar String.length]. rewrite IH. reflexivity.
Qed.

Lemma indexOfChar_none_last (c : ascii) (s : string) :
  indexOfChar c s = None → lastIndexOfChar c s = None.
Proof.
  induction s as [| d s IH]; [reflexivity |]. cbn [indexOfChar lastIndexOfChar].
  destruct (Ascii.eqb d c); [discriminate |].
  destruct (indexOfChar c s); [discriminate |]. intros _. rewrite (IH eq_refl). reflexivity.
Qed.

Section Recovery.
Context {Json : Type}.
Variable parse : string → option Json.

(** X16. [parseJsonObjectFromText] gives [null] for a missing or empty
    text; what [JSON.parse] makes of the whole text when that succeeds;
    otherwise what it makes of the text from the first opening brace to
    the last closing brace, so that an object wrapped in prose without
    braces of its own is recovered; and [null] when the text has no opening
    brace. *)
Theorem parseJsonObjectFromText_recovers :
  parseJsonObjectFromText parse None = None ∧
  parseJsonObjectFromText parse (Some "") = None ∧
  (∀ text value,
     text ≠ "" → parse text = Some value →
     parseJsonObjectFromText parse (Some text) = Some value) ∧
  (∀ pre body post,
     indexOfChar "{"%char pre = None →
     lastIndexOfChar "}"%char post = None →
     parse (pre ++ "{" ++ body ++ "}" ++ post) = None →
     parseJsonObjectFromText parse (Some (pre ++ "{" ++ body ++ "}" ++ post))
       = parse ("{" ++ body ++ "}")) ∧
  (∀ text,
     indexOfChar "{"%char text = None → parse text = None →
     parseJsonObjectFromText parse (Some text) = None).
Proof.
  split; [reflexivity |]. split; [reflexivity |]. split; [| split].
  - intros text value Hne Hparse. unfold parseJsonObjectFromText.
    destruct text; [congruence |]. cbn [isEmpty]. rewrite Hparse. reflexivity.
  - intros pre body post Hpre Hpost Hparse. unfold parseJsonObjectFromText.
    assert (isEmpty (pre ++ "{" ++ body ++ "}" ++ post) = false) as ->
      by (destruct pre; reflexivity).
    rewrite Hparse.
    change ("{" ++ body ++ "}" ++ post) with (String "{"%char (body ++ "}" ++ post)).
    rewrite (indexOfChar_first _ pre _ Hpre).
    assert (pre ++ String "{"%char (body ++ "}" ++ post)
            = (pre ++ "{" ++ body) ++ String "}"%char post) as Hre
      by (rewrite !append_assoc'; reflexivity).
    rewrite Hre at 1. rewrite (lastIndexOfChar_last _ _ post Hpost).
    rewrite !string_length_app. cbn [String.length].
    assert ((String.length pre + (1 + String.length body) <=? String.length pre)%nat
            = false) as -> by (apply Nat.leb_gt; lia).
    unfold sliceRange. rewrite sliceFrom_app.
    replace (String.length pre + (1 + String.length body) + 1 - String.length pre)%nat
      with (String.length ("{" ++ body ++ "}"))
      by (rewrite !string_length_app; cbn [String.length]; lia).
    assert (String "{"%char (body ++ "}" ++ post) = ("{" ++ body ++ "}") ++ post) as ->
      by (rewrite !append_assoc'; reflexivity).
    rewrite sliceTo_app. reflexivity.
  - intros text Hnone Hparse. unfold parseJsonObjectFromText.
    destruct (isEmpty text); [reflexivity |]. rewrite Hparse, Hnone. reflexivity.
Qed.

End Recovery.

(** * Signature headers *)


Lemma allChars_impl (p q : ascii → bool) (s : string) :
  (∀ c, p c = true → q c = true) → allChars p s = true → allChars q s = true.
Proof.
  intros Hpq. induction s as [| c s IH]; [reflexivity |]. cbn [allChars].
  intros [Hc Hs]%andb_prop. rewrite (Hpq c Hc), (IH Hs). reflexivity.
Qed.

Lemma allChars_app (p : ascii → bool) (a b : string) :
  allChars p (a ++ b) = allChars p a && allChars p b.
Proof.
  induction a as [| c a IH]; [reflexivity |].
  rewrite append_cons. cbn [allChars]. rewrite IH, andb_assoc. reflexivity.
Qed.

Lemma plainChar_parts (c : ascii) :
  plainChar c = true →
  isSpace c = false ∧ Ascii.eqb c ","%char = false ∧ Ascii.eqb c "="%char = false.
Proof.
  unfold plainChar. intros [[H1 H2]%andb_prop H3]%andb_prop.
  apply negb_true_iff in H1, H2, H3. auto.
Qed.

Lemma plain_no_separator (sep : ascii) (s : string) :
  (∀ c, plainChar c = true → Ascii.eqb c sep = false) →
  allChars plainChar s = true → indexOfChar sep s = None.
Proof.
  intros Hsep. induction s as [| c s IH]; [reflexivity |]. cbn [allChars indexOfChar].
  intros [Hc Hs]%andb_prop. rewrite (Hsep c Hc), (IH Hs). reflexivity.
Qed.

Lemma plain_no_comma (s : string) :
  allChars plainChar s = true → indexOfChar ","%char s = None.
Proof. apply plain_no_separator. intros c Hc. apply (plainChar_parts c Hc). Qed.

Lemma plain_no_equals (s : string) :
  allChars plainChar s = true → indexOfChar "="%char s = None.
Proof. apply plain_no_separator. intros c Hc. apply (plainChar_parts c Hc). Qed.

Lemma splitOn_whole (sep : ascii) (s : string) :
  indexOfChar sep s = None → splitOn sep s = [s].
Proof.
  induction s as [| c s IH]; [reflexivity |]. cbn [indexOfChar splitOn].
  destruct (Ascii.eqb c sep); [discriminate |].
  destruct (indexOfChar sep s); [discriminate |]. intros _. rewrite (IH eq_refl). reflexivity.
Qed.

Lemma trimEnd_plain (s : string) : allChars plainChar s = true → trimEnd s = s.
Proof.
  induction s as [| c s IH]; [reflexivity |]. cbn [allChars trimEnd].
  intros [Hc Hs]%andb_prop. destruct (plainChar_parts c Hc) as [-> _].
  rewrite (IH Hs). reflexivity.
Qed.

Lemma trimStart_plain (s : string) : allChars plainChar s = true → trimStart s = s.
Proof.
  destruct s as [| c s]; [reflexivity |]. cbn [allChars trimStart].
  intros [Hc _]%andb_prop. destruct (plainChar_parts c Hc) as [-> _]. reflexivity.
Qed.

Lemma trim_plain (s : string) : allChars plainChar s = true → trim s = s.
Proof. intros H. unfold trim. rewrite (trimStart_plain s H). apply trimEnd_plain, H. Qed.

(** Trimming leaves alone a text that begins and ends with a plain
    character, whatever is between. *)
Lemma trimEnd_app (a b : string) :
  isEmpty (trimEnd b) = false → trimEnd (a ++ b) = a ++ trimEnd b.
Proof.
  intros Hb. induction a as [| c a IH]; [reflexivity |].
  rewrite !append_cons. cbn [trimEnd]. rewrite IH.
  destruct (a ++ trimEnd b) eqn:E.
  - destruct a; [| discriminate E]. change ("" ++ trimEnd b) with (trimEnd b) in E.
    rewrite E in Hb. discriminate Hb.
  - cbn [isEmpty]. rewrite andb_false_r. reflexivity.
Qed.

Lemma trim_between (c : ascii) (middle final : string) :
  isSpace c = false → plainWord final →
  trim (String c (middle ++ final)) = String c (middle ++ final).
Proof.
  intros Hc [Hne Hplain]. unfold trim. cbn [trimStart]. rewrite Hc.
  rewrite <- append_cons, trimEnd_app; rewrite (trimEnd_plain final Hplain).
  - reflexivity.
  - apply isEmpty_false, Hne.
Qed.

Lemma includes_char_app (c : ascii) (a b : string) :
  includes (String c "") (a ++ String c b) = true.
Proof.
  apply includes_app_r. cbn [includes String.prefix].
  destruct (ascii_dec c c) as [_ | Hne]; [| contradiction].
  destruct b; reflexivity.
Qed.

(** The header [key=value]: one part, read as the pair. *)
Lemma splitOn_pair (key value : string) :
  indexOfChar "="%char key = None → indexOfChar "="%char value = None →
  splitOn "="%char (key ++ "=" ++ value) = [key; value].
Proof.
  intros Hk Hv. change ("=" ++ value) with (String "="%char value).
  rewrite (splitOn_app _ _ _ Hk), (splitOn_whole _ _ Hv). reflexivity.
Qed.

Lemma parsePart_pair (acc : SignatureHeader) (key value : string) :
  plainWord key → plainWord value →
  parsePart acc (key ++ "=" ++ value)
  = if isTimestampKey key then
      {| sh_timestamp := Some value; sh_signatures := sh_signatures acc |}
    else if isSignatureKey key then
      {| sh_timestamp := sh_timestamp acc;
         sh_signatures := (sh_signatures acc ++ [value])%list |}
    else acc.
Proof.
  intros [Hkne Hk] [Hvne Hv]. unfold parsePart.
  rewrite (splitOn_pair key value (plain_no_equals _ Hk) (plain_no_equals _ Hv)).
  cbn [fmap list_fmap]. rewrite (trim_plain key Hk), (trim_plain value Hv).
  apply isEmpty_false in Hkne, Hvne. rewrite Hkne, Hvne. reflexivity.
Qed.


Lemma includes_absent (c : ascii) (s : string) :
  indexOfChar c s = None → includes (String c "") s = false.
Proof.
  induction s as [| d s IH]; [reflexivity |]. cbn [indexOfChar includes String.prefix].
  destruct (Ascii.eqb d c) eqn:E; [discriminate |].
  destruct (indexOfChar c s); [discriminate |]. intros _. rewrite (IH eq_refl).
  destruct (ascii_dec c d) as [-> | _]; [rewrite Ascii.eqb_refl in E; discriminate E |].
  reflexivity.
Qed.

Lemma partText_shape (p : string * string) :
  plainPair p →
  ∃ c r, partText p = String c (r ++ p.2) ∧ isSpace c = false.
Proof.
  intros [[Hne Hk] _]. unfold partText. destruct (p.1) as [| c k]; [contradiction |].
  cbn [allChars] in Hk. apply andb_prop in Hk as [Hc _].
  exists c, (k ++ "="). rewrite append_cons, append_assoc'.
  split; [reflexivity | apply (plainChar_parts c Hc)].
Qed.

Lemma partText_trim (p : string * string) : plainPair p → trim (partText p) = partText p.
Proof.
  intros Hp. destruct (partText_shape p Hp) as (c & r & -> & Hc).
  apply trim_between; [exact Hc | apply Hp].
Qed.

Lemma partText_nonempty (p : string * string) : plainPair p → isEmpty (partText p) = false.
Proof. intros Hp. destruct (partText_shape p Hp) as (c & r & -> & _). reflexivity. Qed.

Lemma partText_no_comma (p : string * string) :
  plainPair p → indexOfChar ","%char (partText p) = None.
Proof.
  intros [[_ Hk] [_ Hv]]. unfold partText.
  apply indexOfChar_app_none; [apply plain_no_comma, Hk |].
  apply (indexOfChar_app_none _ "="); [reflexivity | apply plain_no_comma, Hv].
Qed.

Lemma partText_includes_equals (p : string * string) (rest : string) :
  includes "=" (partText p ++ rest) = true.
Proof.
  unfold partText. rewrite append_assoc'.
  change (("=" ++ p.2) ++ rest) with (String "="%char (p.2 ++ rest)).
  apply includes_char_app.
Qed.

Lemma signatureHeaderText_cons (p q : string * string) (rest : list (string * string)) :
  signatureHeaderText (p :: q :: rest)
  = partText p ++ String ","%char (signatureHeaderText (q :: rest)).
Proof. reflexivity. Qed.

Lemma signatureHeaderText_split (pairs : list (string * string)) :
  pairs ≠ [] → Forall plainPair pairs →
  splitOn ","%char (signatureHeaderText pairs) = partText <$> pairs.
Proof.
  induction pairs as [| p [| q rest] IH]; intros Hne Hall; [contradiction | |].
  - cbn [signatureHeaderText fmap list_fmap].
    apply splitOn_whole, partText_no_comma. apply (Forall_inv Hall).
  - rewrite signatureHeaderText_cons, splitOn_app by (apply partText_no_comma, (Forall_inv Hall)).
    rewrite IH; [reflexivity | discriminate | apply (Forall_inv_tail Hall)].
Qed.

Lemma signatureHeaderText_trimEnd (pairs : list (string * string)) :
  pairs ≠ [] → Forall plainPair pairs →
  trimEnd (signatureHeaderText pairs) = signatureHeaderText pairs
  ∧ isEmpty (signatureHeaderText pairs) = false.
Proof.
  induction pairs as [| p [| q rest] IH]; intros Hne Hall; [contradiction | |].
  - cbn [signatureHeaderText]. pose proof (Forall_inv Hall) as Hp.
    split; [| apply partText_nonempty, Hp].
    pose proof (partText_trim p Hp) as Ht. unfold trim in Ht.
    destruct (partText_shape p Hp) as (c & r & E & Hc). rewrite E in *.
    cbn [trimStart] in Ht. rewrite Hc in Ht. exact Ht.
  - destruct IH as [IH1 IH2]; [discriminate | apply (Forall_inv_tail Hall) |].
    rewrite signatureHeaderText_cons. pose proof (Forall_inv Hall) as Hp. split.
    + change (String ","%char (signatureHeaderText (q :: rest)))
        with ("," ++ signatureHeaderText (q :: rest)).
      rewrite <- append_assoc', trimEnd_app; rewrite IH1; [reflexivity | exact IH2].
    + destruct (partText_shape p Hp) as (c & r & -> & _). reflexivity.
Qed.

Lemma signatureHeaderText_trim (pairs : list (string * string)) :
  pairs ≠ [] → Forall plainPair pairs →
  trim (signatureHeaderText pairs) = signatureHeaderText pairs.
Proof.
  intros Hne Hall. unfold trim.
  assert (trimStart (signatureHeaderText pairs) = signatureHeaderText pairs) as ->.
  { destruct pairs as [| p [| q rest]]; [contradiction | |].
    - cbn [signatureHeaderText].
      destruct (partText_shape p (Forall_inv Hall)) as (c & r & -> & Hc).
      cbn [trimStart]. rewrite Hc. reflexivity.
    - rewrite signatureHeaderText_cons.
      destruct (partText_shape p (Forall_inv Hall)) as (c & r & -> & Hc).
      rewrite append_cons. cbn [trimStart]. rewrite Hc. reflexivity. }
  apply signatureHeaderText_trimEnd; assumption.
Qed.

Lemma signatureHeaderText_includes_equals (pairs : list (string * string)) :
  pairs ≠ [] → includes "=" (signatureHeaderText pairs) = true.
Proof.
  destruct pairs as [| p [| q rest]]; intros Hne; [contradiction | |].
  - cbn [signatureHeaderText]. pose proof (partText_includes_equals p "") as H.
    assert (partText p ++ "" = partText p) as E.
    { generalize (partText p). intros s. induction s as [| c s IH]; [reflexivity |].
      rewrite append_cons, IH. reflexivity. }
    rewrite E in H. exact H.
  - rewrite signatureHeaderText_cons. apply partText_includes_equals.
Qed.

Lemma headerParts_pairs (pairs : list (string * string)) :
  pairs ≠ [] → Forall plainPair pairs →
  headerParts (signatureHeaderText pairs) = partText <$> pairs.
Proof.
  intros Hne Hall. unfold headerParts. rewrite (signatureHeaderText_split pairs Hne Hall).
  clear Hne. induction Hall as [| p pairs Hp Hall IH]; [reflexivity |].
  cbn [fmap list_fmap List.filter]. rewrite (partText_trim p Hp), (partText_nonempty p Hp).
  cbn [negb]. f_equal. exact IH.
Qed.

Lemma parseParts_pairs (pairs : list (string * string)) (acc : SignatureHeader) :
  Forall plainPair pairs →
  fold_left parsePart (partText <$> pairs) acc = fold_left keepPart pairs acc.
Proof.
  intros Hall. revert acc. induction Hall as [| p pairs [Hk Hv] Hall IH]; intros acc.
  - reflexivity.
  - rewrite fmap_cons. cbn [fold_left].
    change (parsePart acc (partText p)) with (parsePart acc (p.1 ++ "=" ++ p.2)).
    rewrite (parsePart_pair acc p.1 p.2 Hk Hv). apply IH.
Qed.



(** A header of plain parts is read part by part. *)
Lemma parseSignatureHeader_fold (pairs : list (string * string)) :
  pairs ≠ [] → Forall plainPair pairs →
  parseSignatureHeader (signatureHeaderText pairs)
  = fold_left keepPart pairs {| sh_timestamp := None; sh_signatures := [] |}.
Proof.
  intros Hne Hall. unfold parseSignatureHeader.
  rewrite (signatureHeaderText_trim pairs Hne Hall).
  destruct (signatureHeaderText_trimEnd pairs Hne Hall) as [_ ->].
  rewrite (signatureHeaderText_includes_equals pairs Hne). cbn [negb].
  rewrite (headerParts_pairs pairs Hne Hall). apply parseParts_pairs, Hall.
Qed.



(** * Signatures *)

Lemma safeCompareHex_bytes (a b : string) :
  safeCompareHex a b = true ↔ hexDecode a = hexDecode b ∧ hexDecode a ≠ [].
Proof.
  unfold safeCompareHex.
  destruct (hexDecode a) as [| x aa], (hexDecode b) as [| y bb]; cbn [length Nat.eqb orb].
  - split; [discriminate | intros [_ H]; contradiction].
  - split; [discriminate | intros [H _]; discriminate].
  - split; [discriminate | intros [H _]; discriminate].
  - destruct (length aa =? length bb)%nat eqn:E; cbn [negb].
    + rewrite bool_decide_eq_true. split; [intros H; split; [exact H | discriminate] | tauto].
    + split; [discriminate |]. intros [H _]. injection H as _ ->.
      rewrite Nat.eqb_refl in E. discriminate E.
Qed.

Lemma hexValue_lower (c : ascii) : hexValue (lowerAscii c) = hexValue c.
Proof.
  destruct c as [[] [] [] [] [] [] [] []]; vm_compute; reflexivity.
Qed.

Lemma hexDecode_lower (s : string) : hexDecode (toLowerCase s) = hexDecode s.
Proof.
  revert s. fix IH 1. intros [| a [| b r]]; [reflexivity | reflexivity |].
  cbn [toLowerCase hexDecode]. rewrite !hexValue_lower, (IH r). reflexivity.
Qed.


Lemma parsePart_nonempty (acc : SignatureHeader) (part : string) :
  nonemptyValues acc → nonemptyValues (parsePart acc part).
Proof.
  intros [Ht Hs]. unfold parsePart.
  destruct (trim <$> splitOn "="%char part) as [| k [| v rest]]; [split; assumption .. |].
  destruct (isEmpty k || isEmpty v) eqn:E; [split; assumption |].
  apply orb_false_elim in E as [_ Hv]. apply isEmpty_false in Hv.
  destruct (isTimestampKey k); [| destruct (isSignatureKey k)]; split; cbn; try assumption.
  - intros t [= <-]. exact Hv.
  - apply Forall_app. split; [exact Hs | constructor; [exact Hv | constructor]].
Qed.

Lemma parseParts_nonempty (parts : list string) (acc : SignatureHeader) :
  nonemptyValues acc → nonemptyValues (fold_left parsePart parts acc).
Proof.
  revert acc. induction parts as [| p parts IH]; intros acc Hacc; [exact Hacc |].
  cbn [fold_left]. apply IH, parsePart_nonempty, Hacc.
Qed.

Lemma parseSignatureHeader_nonempty (raw : string) :
  nonemptyValues (parseSignatureHeader raw).
Proof.
  unfold parseSignatureHeader.
  destruct (isEmpty (trim raw)) eqn:E; [split; [discriminate | constructor] |].
  destruct (negb (includes "=" (trim raw))).
  - split; [discriminate |]. constructor; [apply isEmpty_false, E | constructor].
  - apply parseParts_nonempty. split; [discriminate | constructor].
Qed.

Lemma truthyText_parsed (raw : string) :
  truthyText (sh_timestamp (parseSignatureHeader raw)) = sh_timestamp (parseSignatureHeader raw).
Proof.
  destruct (parseSignatureHeader_nonempty raw) as [Ht _].
  destruct (sh_timestamp (parseSignatureHeader raw)) as [t |]; [| reflexivity].
  cbn [truthyText]. specialize (Ht t eq_refl). apply isEmpty_false in Ht. rewrite Ht. reflexivity.
Qed.

Section Verification.

Variable hmacHex : string → string → string.
Variable toNumber : string → JsNumber.

Local Abbreviation verify := (verifySignature hmacHex toNumber).


Lemma provided_elem (raw sig : string) :
  sig ∈ providedSignatures (parseSignatureHeader raw) raw
  ↔ sig ∈ sh_signatures (parseSignatureHeader raw)
    ∨ (sh_signatures (parseSignatureHeader raw) = []
       ∧ sh_timestamp (parseSignatureHeader raw) = None ∧ sig = trim raw).
Proof.
  unfold providedSignatures. rewrite truthyText_parsed.
  destruct (sh_signatures (parseSignatureHeader raw)) as [| s sigs] eqn:Es; cbn [length Nat.ltb Nat.leb].
  - destruct (sh_timestamp (parseSignatureHeader raw)) as [t |].
    + rewrite elem_of_nil. split; [tauto |]. intros [H | (_ & H & _)]; [exact H | discriminate H].
    + rewrite list_elem_of_singleton, elem_of_nil. split; [intros ->; right; auto |].
      intros [[] | (_ & _ & H)]. exact H.
  - split; [tauto |]. intros [H | (H & _)]; [exact H | discriminate H].
Qed.

Lemma candidate_elem (secret rawBody : string) (ts : option string) (cand : string) :
  cand ∈ signatureCandidates hmacHex secret rawBody ts
  ↔ cand = hmacHex secret rawBody
    ∨ ∃ t, ts = Some t ∧ cand = hmacHex secret (t ++ "." ++ rawBody).
Proof.
  unfold signatureCandidates. destruct ts as [t |].
  - rewrite elem_of_cons, list_elem_of_singleton. split.
    + intros [H | H]; [left; exact H | right; eauto].
    + intros [H | (t' & [= <-] & H)]; [left; exact H | right; exact H].
  - rewrite list_elem_of_singleton. split; [tauto |].
    intros [H | (t' & H & _)]; [exact H | discriminate H].
Qed.

Lemma matched_signedBy (secret rawBody raw : string) :
  existsb (λ sig, existsb (λ cand, safeCompareHex sig cand)
                    (signatureCandidates hmacHex secret rawBody
                       (truthyText (sh_timestamp (parseSignatureHeader raw)))))
          (providedSignatures (parseSignatureHeader raw) raw) = true
  ↔ ∃ sig, signedBy hmacHex secret rawBody (parseSignatureHeader raw) raw sig.
Proof.
  rewrite truthyText_parsed, existsb_exists. split.
  - intros (sig & Hin & Hex). apply existsb_exists in Hex as (cand & Hc & Heq).
    apply list_elem_of_In, provided_elem in Hin. apply list_elem_of_In, candidate_elem in Hc.
    apply safeCompareHex_bytes in Heq as [Heq Hne].
    exists sig. split; [exact Hin |]. split; [exact Hne |].
    destruct Hc as [-> | (t & Ht & ->)]; [left; exact Heq | right; eauto].
  - intros (sig & Hin & Hne & Hc). exists sig.
    split; [apply list_elem_of_In, provided_elem, Hin |].
    apply existsb_exists. destruct Hc as [Heq | (t & Ht & Heq)].
    + exists (hmacHex secret rawBody).
      split; [apply list_elem_of_In, candidate_elem; left; reflexivity |].
      apply safeCompareHex_bytes; auto.
    + exists (hmacHex secret (t ++ "." ++ rawBody)).
      split; [apply list_elem_of_In, candidate_elem; right; eauto |].
      apply safeCompareHex_bytes; auto.
Qed.

Lemma verifySignature_Verified (rawBody raw secret : string) (tol : Q) (nowSec : Z) :
  verify rawBody raw secret tol nowSec = Verified
  ↔ (∃ sig, signedBy hmacHex secret rawBody (parseSignatureHeader raw) raw sig)
    ∧ timely toNumber (parseSignatureHeader raw) tol nowSec.
Proof.
  rewrite <- matched_signedBy. unfold verifySignature, timely. cbv zeta.
  destruct (existsb _ _); cbn [negb].
  2: { split; [discriminate | intros [H _]; discriminate H]. }
  rewrite truthyText_parsed.
  destruct (sh_timestamp (parseSignatureHeader raw)) as [t |].
  2: { split; [intros _; split; [reflexivity | intros t Ht; discriminate Ht] | reflexivity]. }
  destruct (toNumber t) as [tsSec | | |] eqn:En.
  2-4: split; [discriminate |]; intros [_ H]; destruct (H t eq_refl) as (q & Hq & _);
       congruence.
  destruct (Qltb tol (Qabs (inject_Z nowSec - tsSec))) eqn:El.
  - split; [discriminate |]. intros [_ H]. destruct (H t eq_refl) as (q & Hn & Hq).
    rewrite En in Hn. injection Hn as <-. apply Qltb_lt in El. exfalso. apply (Qlt_not_le _ _ El Hq).
  - split; [| reflexivity]. intros _. split; [reflexivity |].
    intros t' [= <-]. exists tsSec. split; [exact En |]. apply Qltb_ge, El.
Qed.

End Verification.


Lemma isHexDigit_plain (c : ascii) : isHexDigit c = true → plainChar c = true.
Proof.
  destruct c as [[] [] [] [] [] [] [] []]; vm_compute; (reflexivity || discriminate).
Qed.

Lemma hexPairs_plain (s : string) : hexPairs s = true → allChars plainChar s = true.
Proof.
  revert s. fix IH 1. intros [| a [| b r]]; [reflexivity | discriminate |].
  cbn [hexPairs allChars]. intros [[Ha Hb]%andb_prop Hr]%andb_prop.
  rewrite (isHexDigit_plain a Ha), (isHexDigit_plain b Hb), (IH r Hr). reflexivity.
Qed.

Lemma hexDigest_plainWord (s : string) : hexDigest s → plainWord s.
Proof. intros [Hne Hp]. split; [exact Hne | apply hexPairs_plain, Hp]. Qed.

Lemma hexDigest_bytes (s : string) : hexDigest s → hexDecode s ≠ [].
Proof.
  intros [Hne Hp]. destruct s as [| a [| b r]]; [contradiction | discriminate Hp |].
  cbn [hexPairs] in Hp. apply andb_prop in Hp as [[Ha Hb]%andb_prop _].
  unfold isHexDigit in Ha, Hb. cbn [hexDecode].
  destruct (hexValue a); [| discriminate Ha]. destruct (hexValue b); [| discriminate Hb].
  discriminate.
Qed.

Lemma hexDecode_app (a junk : string) :
  hexPairs a = true → hexDecode (a ++ junk) = (hexDecode a ++ hexDecode junk)%list.
Proof.
  revert a. fix IH 1. intros [| x [| y r]]; [reflexivity | discriminate |].
  cbn [hexPairs]. intros [[Hx Hy]%andb_prop Hr]%andb_prop.
  rewrite !append_cons. cbn [hexDecode]. unfold isHexDigit in Hx, Hy.
  destruct (hexValue x); [| discriminate Hx]. destruct (hexValue y); [| discriminate Hy].
  rewrite (IH r Hr). reflexivity.
Qed.

Lemma safeCompareHex_sym (a b : string) : safeCompareHex a b = safeCompareHex b a.
Proof.
  destruct (safeCompareHex a b) eqn:E1, (safeCompareHex b a) eqn:E2; try reflexivity.
  - apply safeCompareHex_bytes in E1 as [E1 Hne].
    assert (safeCompareHex b a = true) as H
      by (apply safeCompareHex_bytes; split; [symmetry; exact E1 | rewrite <- E1; exact Hne]).
    congruence.
  - apply safeCompareHex_bytes in E2 as [E2 Hne].
    assert (safeCompareHex a b = true) as H
      by (apply safeCompareHex_bytes; split; [symmetry; exact E2 | rewrite <- E2; exact Hne]).
    congruence.
Qed.

(** X18. [safeCompareHex] compares the bytes the two texts decode to, and
    never accepts a text that decodes to no byte (an empty text, or one that
    does not start with two hexadecimal digits): the order of the arguments
    and the case of the letters do not matter, a digest equals itself, and
    what follows a run of hexadecimal pairs is ignored as soon as it does not
    decode. *)
Theorem safeCompareHex_compares_bytes (a b : string) :
  (safeCompareHex a b = true ↔ hexDecode a = hexDecode b ∧ hexDecode a ≠ [])
  ∧ safeCompareHex b a = safeCompareHex a b
  ∧ safeCompareHex (toLowerCase a) b = safeCompareHex a b
  ∧ (hexDigest a → safeCompareHex a a = true)
  ∧ (∀ junk, hexPairs a = true → hexDecode junk = [] →
       safeCompareHex (a ++ junk) b = safeCompareHex a b).
Proof.
  split; [apply safeCompareHex_bytes |]. split; [apply safeCompareHex_sym |].
  split; [unfold safeCompareHex; rewrite hexDecode_lower; reflexivity |].
  split.
  - intros Ha. apply safeCompareHex_bytes. split; [reflexivity | apply hexDigest_bytes, Ha].
  - intros junk Ha Hj. unfold safeCompareHex.
    rewrite (hexDecode_app a junk Ha), Hj, app_nil_r. reflexivity.
Qed.

Lemma getSignatureHeader_plain (text : string) (alt : HeaderValue) :
  trim text = text → text ≠ "" → getSignatureHeader (HeaderString text) alt = text.
Proof.
  intros Ht Hne. unfold getSignatureHeader, headerCandidate. rewrite Ht.
  apply isEmpty_false in Hne. rewrite Hne. reflexivity.
Qed.

Section Guard.

Variable hmacHex : string → string → string.
Variable toNumber : string → JsNumber.

Local Abbreviation guard := (signatureGuard hmacHex toNumber).

Lemma guard_None (secret : string) (direct alt : HeaderValue) (rawBody : string)
    (tol : Q) (nowSec : Z) :
  guard secret direct alt rawBody tol nowSec = None
  ↔ secret = ""
    ∨ (getSignatureHeader direct alt ≠ ""
       ∧ (∃ sig, signedBy hmacHex secret rawBody
                   (parseSignatureHeader (getSignatureHeader direct alt))
                   (getSignatureHeader direct alt) sig)
       ∧ timely toNumber (parseSignatureHeader (getSignatureHeader direct alt)) tol nowSec).
Proof.
  unfold signatureGuard. destruct (isEmpty secret) eqn:Es.
  { apply isEmpty_true in Es. split; [intros _; left; exact Es | reflexivity]. }
  apply isEmpty_false in Es. cbv zeta.
  destruct (isEmpty (getSignatureHeader direct alt)) eqn:Eh.
  { apply isEmpty_true in Eh. split; [discriminate |].
    intros [H | (H & _)]; contradiction. }
  apply isEmpty_false in Eh.
  pose proof (verifySignature_Verified hmacHex toNumber rawBody
                (getSignatureHeader direct alt) secret tol nowSec) as Hv.
  destruct (verifySignature _ _ _ _ _ _ _) as [| reason drift].
  - split; [intros _; right; split; [exact Eh | apply Hv; reflexivity] | reflexivity].
  - split; [discriminate |]. intros [H | (_ & H1 & H2)]; [contradiction |].
    assert (Refused reason drift = Verified) as Hr by (apply Hv; split; assumption).
    discriminate Hr.
Qed.

(** The header [t=<ts>,v0=<sig>]. *)
Lemma timestamped_header (ts sig : string) :
  "t=" ++ ts ++ ",v0=" ++ sig = signatureHeaderText [("t", ts); ("v0", sig)].
Proof.
  cbn [signatureHeaderText]. unfold partText. cbn [fst snd].
  rewrite !append_assoc'. reflexivity.
Qed.

Lemma timestamped_header_parsed (ts sig : string) :
  plainWord ts → plainWord sig →
  let header := "t=" ++ ts ++ ",v0=" ++ sig in
  trim header = header ∧ header ≠ ""
  ∧ parseSignatureHeader header = {| sh_timestamp := Some ts; sh_signatures := [sig] |}.
Proof.
  intros Hts Hsig header. subst header. rewrite timestamped_header.
  assert (Forall plainPair [("t", ts); ("v0", sig)]) as Hall.
  { constructor; [split; [split; [discriminate | reflexivity] | exact Hts] |].
    constructor; [split; [split; [discriminate | reflexivity] | exact Hsig] | constructor]. }
  assert ([("t", ts); ("v0", sig)] ≠ []) as Hne by discriminate.
  split; [apply signatureHeaderText_trim; assumption |].
  split; [apply isEmpty_false, (signatureHeaderText_trimEnd _ Hne Hall) |].
  apply (parseSignatureHeader_fold _ Hne Hall).
Qed.

Lemma timestamped_header_passes (secret ts sig rawBody : string) (alt : HeaderValue)
    (sent tol : Q) (nowSec : Z) :
  plainWord ts → hexDigest sig →
  hexDecode sig = hexDecode (hmacHex secret rawBody)
  ∨ hexDecode sig = hexDecode (hmacHex secret (ts ++ "." ++ rawBody)) →
  toNumber ts = Finite sent →
  (Qabs (inject_Z nowSec - sent) <= tol)%Q →
  guard secret (HeaderString ("t=" ++ ts ++ ",v0=" ++ sig)) alt rawBody tol nowSec = None.
Proof.
  intros Hts Hsig Hbytes Hnum Htime. apply guard_None.
  destruct (timestamped_header_parsed ts sig Hts (hexDigest_plainWord _ Hsig))
    as (Htrim & Hne & Hparsed).
  rewrite (getSignatureHeader_plain _ alt Htrim Hne), Hparsed.
  right. split; [exact Hne |]. split.
  - exists sig. split; [left; apply list_elem_of_here |].
    split; [apply hexDigest_bytes, Hsig |].
    destruct Hbytes as [H | H]; [left; exact H | right; exists ts; split; [reflexivity | exact H]].
  - intros t [= <-]. exists sent. split; assumption.
Qed.

End Guard.

(** * What is learnt from the calls *)

Section Learning.
Local Open Scope Q_scope.









End Learning.

(** * The guard of the webhook *)

Section GuardAnswers.

Variable hmacHex : string → string → string.
Variable toNumber : string → JsNumber.


End GuardAnswers.


(** X20. The sender and the receiver agree: the header replay-webhook.mjs
    computes for a body, [t=<timestamp>,v0=<HMAC of timestamp.body>], passes
    the guard of the webhook server that holds the same secret, whenever the
    timestamp reads as a number at most [toleranceSeconds] from the server's
    clock. The timestamp is a word without white space, comma or equals sign
    (the sender writes a decimal number) and the digest is written in
    hexadecimal. *)
Theorem replayed_request_passes (hmacHex : string → string → string)
    (toNumber : string → JsNumber) (secret timestamp body : string) (alt : HeaderValue)
    (sent tol : Q) (nowSec : Z) :
  plainWord timestamp →
  hexDigest (hmacHex secret (timestamp ++ "." ++ body)) →
  toNumber timestamp = Finite sent →
  (Qabs (inject_Z nowSec - sent) <= tol)%Q →
  signatureGuard hmacHex toNumber secret
    (HeaderString (replaySignature hmacHex secret timestamp body)) alt body tol nowSec
  = None.
Proof.
  intros Hts Hd Hnum Htime. unfold replaySignature.
  apply (timestamped_header_passes hmacHex toNumber secret timestamp _ body alt sent tol nowSec);
    try assumption.
  right. reflexivity.
Qed.

Lemma replayed_request_passes_witness :
  signatureGuard sampleDigest sampleNumber "secret"
    (HeaderString (replaySignature sampleDigest "secret" "1700000000" "{}"))
    HeaderAbsent "{}" 300%Q 1700000120%Z
  = None.
Proof.
  apply (replayed_request_passes sampleDigest sampleNumber "secret" "1700000000" "{}"
           HeaderAbsent 1700000000%Q 300%Q 1700000120%Z).
  - split; [discriminate | reflexivity].
  - split; [discriminate | reflexivity].
  - reflexivity.
  - vm_compute. discriminate.
Defined.

(** X21. The timestamp of a header is not covered by the signature the server
    accepts: the HMAC of the body alone passes together with any timestamp
    that reads as the server's present time, so a request signed that way
    passes at any later time with a fresh timestamp and the same signature. *)
Theorem body_signature_passes_any_time (hmacHex : string → string → string)
    (toNumber : string → JsNumber) (secret timestamp body : string) (alt : HeaderValue)
    (tol : Q) (nowSec : Z) :
  plainWord timestamp →
  hexDigest (hmacHex secret body) →
  toNumber timestamp = Finite (inject_Z nowSec) →
  (0 <= tol)%Q →
  signatureGuard hmacHex toNumber secret
    (HeaderString ("t=" ++ timestamp ++ ",v0=" ++ hmacHex secret body)) alt body tol nowSec
  = None.
Proof.
  intros Hts Hd Hnum Htol.
  apply (timestamped_header_passes hmacHex toNumber secret timestamp _ body alt
           (inject_Z nowSec) tol nowSec); try assumption.
  - left. reflexivity.
  - assert (inject_Z nowSec - inject_Z nowSec == 0)%Q as -> by ring. exact Htol.
Qed.

Lemma body_signature_passes_any_time_witness :
  signatureGuard sampleDigest sampleNumber "secret"
    (HeaderString "t=1700000000,v0=5f2a") HeaderAbsent "{}" 0%Q 1700000000%Z
  = None.
Proof.
  apply (body_signature_passes_any_time sampleDigest sampleNumber "secret" "1700000000" "{}"
           HeaderAbsent 0%Q 1700000000%Z).
  - split; [discriminate | reflexivity].
  - split; [discriminate | reflexivity].
  - reflexivity.
  - discriminate.
Defined.

(** * The learning file *)



(** Three calls, two of them of one lead and one without a lead. *)
Example learning_scenario :
  let learning := learnFrom sampleCalls in
  l_callsCount learning = 3%Z
  ∧ (l_totalDurationSeconds learning == 111.75)%Q
  ∧ (l_avgDurationSeconds learning == 37.25)%Q
  ∧ (ll_callsCount <$> l_byLeadId learning !! "lead_1") = Some 2%Z
  ∧ (ll_callsCount <$> l_byLeadId learning !! "unknown") = Some 1%Z
  ∧ (ll_lastConversationId <$> l_byLeadId learning !! "unknown") = Some None
  ∧ l_byLeadId learning !! "lead_2" = None.
Proof. vm_compute. repeat split; reflexivity. Qed.
